(** * ta-matcher: the project allocator of [block.py]

    A shallow embedding of the project half of [block.py]
    ([project_conflicts], [assign_project], [update_project_history]) and
    the properties of its specification.

    Conventions of the embedding.
    - Logins (TAs and students) are [string]s; Python compares [str] by code
      point, which on UTF-8 encoded text is the byte-wise lexicographic
      order [String.le].
    - A group of students (a Python [set] of logins) is a [gset string].
    - The dictionaries [blocks], [history] and [ta2groups] are [gmap]s keyed
      by TA login.  A subscript [d[k]] on a missing key raises [KeyError].
    - The argument [tas] is a Python [set].  Apart from [dict.fromkeys(tas)]
      and [len(tas)], for which the order is immaterial, the code walks it
      only through [list(tas.copy())].  The iteration order of a set is not
      fixed by the language, so [tas] is given here as the list of its
      elements in that order, and nothing is assumed about the order beyond
      [NoDup] where a statement says so.
    - Exceptions are values of [exn]; a computation that may raise returns a
      [result].  The messages written by [print] in the placement loop are
      kept as a list of [event]s next to the allocation; the banners
      ("Assigning projects", ...) are left out. *)

From stdpp Require Import gmap strings list fin_maps sorting.

Module Block.

(** ** Exceptions and results *)

Inductive exn : Type :=
  | ZeroDivisionError
  | KeyError
  | ValueError
  | AssertionError.

Definition exn_name (e : exn) : string :=
  match e with
  | ZeroDivisionError => "ZeroDivisionError"
  | KeyError => "KeyError"
  | ValueError => "ValueError"
  | AssertionError => "AssertionError"
  end.

Inductive result (A : Type) : Type :=
  | Ok (a : A)
  | Raise (e : exn).
Arguments Ok {A} a.
Arguments Raise {A} e.

#[global] Instance result_ret : MRet result := λ A a, Ok a.
#[global] Instance result_bind : MBind result := λ A B k r,
  match r with
  | Ok a => k a
  | Raise e => Raise e
  end.

(** [d[k]] on a dictionary. *)
Definition subscript {V : Type} (d : gmap string V) (k : string) : result V :=
  match d !! k with
  | Some v => Ok v
  | None => Raise KeyError
  end.

(** ** Data *)

Abbreviation Group := (gset string).
Abbreviation BlockMap := (gmap string (gset string)).
Abbreviation HistoryMap := (gmap string (gset string)).
Abbreviation Allocation := (gmap string (list (gset string))).

(** What the placement loop prints. *)
Inductive event : Type :=
  | NoOptions (pair : Group)      (* "Group {0} had conflicts with all options" *)
  | OverCapacity (pair : Group).  (* "Group {0} placed over capacity" *)

(** ** Conflict checker *)

(** Modelled from the spec: [find_conflict] is called by [project_conflicts]
    but is not defined in [block.py].  Following section 4.3, a conflict
    exists when the student is in that staff member's block set; the found
    (staff, student) pair is returned for the diagnostic, and a staff member
    without an entry has an empty block set. *)
Definition find_conflict (ta student : string) (blocks : BlockMap)
  : option (string * string) :=
  if decide (student ∈ blocks !!! ta) then Some (ta, student) else None.

(** The three nested [for] loops of [project_conflicts]; [found_conflict] is
    the accumulator, and no loop exits early. *)
Definition conflicts_in_pair (ta : string) (blocks : BlockMap)
    (found_conflict : bool) (pair : Group) : bool :=
  foldl (λ found student,
           match find_conflict ta student blocks with
           | Some _ => true
           | None => found
           end)
        found_conflict (elements pair).

Definition conflicts_in_groups (ta : string) (blocks : BlockMap)
    (found_conflict : bool) (group : list Group) : bool :=
  foldl (conflicts_in_pair ta blocks) found_conflict group.

Definition project_conflicts (ta2groups : Allocation) (blocks : BlockMap) : bool :=
  foldl (λ found item, conflicts_in_groups item.1 blocks found item.2)
        false (map_to_list ta2groups).

(** ** Allocator *)

(** [len(ta2groups[ta])].  [ta2groups] is built by [dict.fromkeys(tas)] and
    only ever subscripted by members of [tas], so the subscript cannot raise
    (see [assign_loop_dom]); the lookup is total here. *)
Definition load (ta2groups : Allocation) (ta : string) : nat :=
  length (ta2groups !!! ta).

(** [sorted(l, key=...)]: Python's sort is stable, and a stable sort is
    determined by its key; insertion from the right keeps equal keys in their
    original order. *)
Fixpoint insert_by_key {A : Type} (key : A → nat) (x : A) (l : list A) : list A :=
  match l with
  | [] => [x]
  | y :: l' =>
      if decide (key y < key x) then y :: insert_by_key key x l' else x :: l
  end.

Definition sorted {A : Type} (key : A → nat) (l : list A) : list A :=
  foldr (insert_by_key key) [] l.

(** [options.remove(ta)]: deletes the first occurrence. *)
Fixpoint remove_first (ta : string) (options : list string) : list string :=
  match options with
  | [] => []
  | t :: rest => if decide (t = ta) then rest else t :: remove_first ta rest
  end.

(** [if ta in options: options.remove(ta)] *)
Definition discard (ta : string) (options : list string) : list string :=
  if decide (ta ∈ options) then remove_first ta options else options.

(** One turn of [for student in pair]: the test
    [student in history[ta] or student in blocks[ta]] short-circuits, so
    [blocks[ta]] is only subscripted when the history test is false. *)
Definition check_student (history : HistoryMap) (blocks : BlockMap)
    (ta : string) (options : list string) (student : string)
  : result (list string) :=
  h ← subscript history ta;
  if decide (student ∈ h) then Ok (discard ta options)
  else
    b ← subscript blocks ta;
    if decide (student ∈ b) then Ok (discard ta options) else Ok options.

Fixpoint check_students (history : HistoryMap) (blocks : BlockMap)
    (ta : string) (students : list string) (options : list string)
  : result (list string) :=
  match students with
  | [] => Ok options
  | student :: rest =>
      options' ← check_student history blocks ta options student;
      check_students history blocks ta rest options'
  end.

(** [for ta in options: ...] where the body mutates [options].  A Python list
    iterator is an index into the live list: each turn reads [options[i]] if
    [i < len(options)], advances [i], and runs the body on the list as it is
    now.  [fuel] bounds the number of turns; [length options - i] is always
    enough ([filter_options_fuel]). *)
Fixpoint filter_options (fuel : nat) (history : HistoryMap) (blocks : BlockMap)
    (pair : Group) (i : nat) (options : list string) : result (list string) :=
  match fuel with
  | 0 => Ok options
  | S fuel' =>
      match options !! i with
      | None => Ok options
      | Some ta =>
          options' ← check_students history blocks ta (elements pair) options;
          filter_options fuel' history blocks pair (S i) options'
      end
  end.

(** The whole filtering phase for one group, starting from the sorted
    candidate list. *)
Definition surviving (tas : list string) (history : HistoryMap)
    (blocks : BlockMap) (ta2groups : Allocation) (pair : Group)
  : result (list string) :=
  let options := sorted (load ta2groups) tas in
  filter_options (length options) history blocks pair 0 options.

(** The placement loop: the first option whose load is below the maximum
    ([continue] on the others, [break] at the first hit). *)
Fixpoint first_below (ta2groups : Allocation) (max_groups_per_ta : nat)
    (options : list string) : option string :=
  match options with
  | [] => None
  | ta :: rest =>
      if decide (max_groups_per_ta ≤ load ta2groups ta)
      then first_below ta2groups max_groups_per_ta rest
      else Some ta
  end.

(** Python's [<] on [(int, str)] tuples: the first components decide unless
    they are equal, then the strings do. *)
Definition tuple_ltb (p q : nat * string) : bool :=
  if decide (p.1 = q.1) then String.ltb p.2 q.2 else bool_decide (p.1 < q.1).

(** [min(l)]: keeps the first item and replaces it by every later item that
    is strictly smaller; on an empty list it raises [ValueError]. *)
Definition py_min (l : list (nat * string)) : result (nat * string) :=
  match l with
  | [] => Raise ValueError
  | p :: ps => Ok (foldl (λ best item, if tuple_ltb item best then item else best) p ps)
  end.

Definition smallest_option (ta2groups : Allocation) (options : list string)
  : result string :=
  m ← py_min ((λ t, (load ta2groups t, t)) <$> options);
  Ok m.2.

(** [ta2groups[ta].append(pair)] *)
Definition append_pair (ta : string) (pair : Group) (ta2groups : Allocation)
  : Allocation :=
  <[ta := (ta2groups !!! ta) ++ [pair]]> ta2groups.

(** The body of [for pair in student_pairs], on the allocation and the
    output written so far. *)
Definition assign_pair (tas : list string) (history : HistoryMap)
    (blocks : BlockMap) (max_groups_per_ta : nat)
    (st : Allocation * list event) (pair : Group)
  : result (Allocation * list event) :=
  let '(ta2groups, out) := st in
  options ← surviving tas history blocks ta2groups pair;
  if decide (length options = 0) then Ok (ta2groups, out ++ [NoOptions pair])
  else
    match first_below ta2groups max_groups_per_ta options with
    | Some ta => Ok (append_pair ta pair ta2groups, out)
    | None =>
        smallest ← smallest_option ta2groups options;
        Ok (append_pair smallest pair ta2groups, out ++ [OverCapacity pair])
    end.

Fixpoint assign_loop (tas : list string) (history : HistoryMap)
    (blocks : BlockMap) (max_groups_per_ta : nat)
    (st : Allocation * list event) (student_pairs : list Group)
  : result (Allocation * list event) :=
  match student_pairs with
  | [] => Ok st
  | pr :: rest =>
      st' ← assign_pair tas history blocks max_groups_per_ta st pr;
      assign_loop tas history blocks max_groups_per_ta st' rest
  end.

(** [dict.fromkeys(tas)] followed by [ta2groups[g] = list()] for every key. *)
Definition empty_allocation (tas : list string) : Allocation :=
  list_to_map ((λ ta, (ta, [])) <$> tas).

(** [math.ceil(n / m)].  The quotient is a float; for list lengths (below
    2^53) its ceiling is the exact integer ceiling, which is what is computed
    here.  Division by zero raises. *)
Definition ceiling (n m : nat) : nat := (n + m - 1) / m.

Definition ceil_div (n m : nat) : result nat :=
  if decide (m = 0) then Raise ZeroDivisionError else Ok (ceiling n m).

(** [assign_project(tas, student_pairs, history, blocks)]; the result pairs
    the returned [ta2groups] with the messages of the placement loop. *)
Definition assign_project (tas : list string) (student_pairs : list Group)
    (history : HistoryMap) (blocks : BlockMap)
  : result (Allocation * list event) :=
  let ta2groups := empty_allocation tas in
  max_groups_per_ta ← ceil_div (length student_pairs) (length tas);
  st ← assign_loop tas history blocks max_groups_per_ta (ta2groups, []) student_pairs;
  if project_conflicts st.1 blocks then Raise AssertionError else Ok st.

(** ** History updater *)

(** [curr_history[ta].add(student)] *)
Definition add_student (ta : string) (curr_history : HistoryMap)
    (student : string) : result HistoryMap :=
  h ← subscript curr_history ta;
  Ok (<[ta := h ∪ {[student]}]> curr_history).

Fixpoint add_students (ta : string) (curr_history : HistoryMap)
    (students : list string) : result HistoryMap :=
  match students with
  | [] => Ok curr_history
  | student :: rest =>
      h ← add_student ta curr_history student;
      add_students ta h rest
  end.

Fixpoint add_groups (ta : string) (curr_history : HistoryMap)
    (groups : list Group) : result HistoryMap :=
  match groups with
  | [] => Ok curr_history
  | pr :: rest =>
      h ← add_students ta curr_history (elements pr);
      add_groups ta h rest
  end.

Fixpoint add_items (curr_history : HistoryMap)
    (items : list (string * list Group)) : result HistoryMap :=
  match items with
  | [] => Ok curr_history
  | (ta, groups) :: rest =>
      h ← add_groups ta curr_history groups;
      add_items h rest
  end.

(** [update_project_history(curr_history, curr_groups)] with [fname=None]:
    the dictionary is updated in place and returned, so the result is the
    new content of [curr_history]. *)
Definition update_project_history (curr_history : HistoryMap)
    (curr_groups : Allocation) : result HistoryMap :=
  add_items curr_history (map_to_list curr_groups).

(** ** Vocabulary of the statements *)

(** The updater in the words of the specification: every staff member's
    history set is united with all students of all groups assigned to them
    (a staff member without an entry in the allocation has no group). *)
Definition merged_history (history : HistoryMap) (allocation : Allocation)
  : HistoryMap :=
  map_imap (λ ta seen, Some (seen ∪ ⋃ (allocation !!! ta))) history.

(** The order of Python on [(int, str)] tuples, non-strict. *)
Definition tuple_le (p q : nat * string) : Prop :=
  p.1 < q.1 ∨ (p.1 = q.1 ∧ String.le p.2 q.2).

(** ** The scenarios of the specification *)

Definition X : string := "X".
Definition Y : string := "Y".
Definition Z : string := "Z".
Definition s1 : string := "s1".
Definition s2 : string := "s2".
Definition s3 : string := "s3".
Definition s4 : string := "s4".
Definition s5 : string := "s5".

(** ** Vocabulary of the allocation invariants *)

(** No student of the group is in the staff member's history or block set
    (a missing entry counts as empty). *)
Definition compatible (history : HistoryMap) (blocks : BlockMap)
    (ta : string) (pair : Group) : Prop :=
  ∀ student, student ∈ pair →
    (student ∉ history !!! ta) ∧ (student ∉ blocks !!! ta).

(** All groups held by the staff members of [tas], list after list. *)
Definition placed (tas : list string) (ta2groups : Allocation) : list Group :=
  concat ((λ ta, ta2groups !!! ta) <$> tas).

(** The groups reported as having conflicts with all options. *)
Definition reported (out : list event) : list Group :=
  omap (λ e, match e with NoOptions g => Some g | OverCapacity _ => None end) out.

(** ** The file-level functions *)

(** The files are taken as already parsed: a CSV file is the list of rows
    [csv.reader] yields (a blank line yields the empty row), the JSON
    history is the object [json.load] yields, with a list of logins per
    key.  The file-level functions can raise [IndexError] besides the
    exceptions of the core, and [OSError] (or one of its subclasses, such
    as [FileNotFoundError]) where they ask the operating system to create a
    directory or to open a file for writing. *)
Inductive py_exn : Type :=
  | IndexError
  | OSError
  | Exn (e : exn).

Inductive outcome (A : Type) : Type :=
  | Done (a : A)
  | Failed (e : py_exn).
Arguments Done {A} a.
Arguments Failed {A} e.

#[global] Instance outcome_ret : MRet outcome := λ A a, Done a.
#[global] Instance outcome_bind : MBind outcome := λ A B k r,
  match r with
  | Done a => k a
  | Failed e => Failed e
  end.

Definition lift {A : Type} (r : result A) : outcome A :=
  match r with
  | Ok a => Done a
  | Raise e => Failed (Exn e)
  end.

(** [row[i]] on a list. *)
Definition index (row : list string) (i : nat) : outcome string :=
  match row !! i with
  | Some cell => Done cell
  | None => Failed IndexError
  end.

(** [{item for sublist in list(reader) for item in sublist}] *)
Definition flatten_set (rows : list (list string)) : gset string :=
  list_to_set (concat rows).

(** [for ta in tas: if ta != "": blocks[ta] = set()] on the empty dictionary. *)
Definition empty_blocks (tas : gset string) : BlockMap :=
  gset_to_gmap ∅ (filter (λ ta, ta ≠ "") tas).

(** The body of [for row in reader] in [load_blocks]. *)
Definition add_block (blocks : BlockMap) (row : list string) : outcome BlockMap :=
  ta ← index row 0;
  student ← index row 1;
  b ← lift (subscript blocks ta);
  Done (<[ta := b ∪ {[student]}]> blocks).

Fixpoint add_blocks (blocks : BlockMap) (rows : list (list string))
  : outcome BlockMap :=
  match rows with
  | [] => Done blocks
  | row :: rest =>
      blocks' ← add_block blocks row;
      add_blocks blocks' rest
  end.

(** [load_blocks(block_file, ta_lst)] on the rows of the two files. *)
Definition load_blocks (block_rows ta_rows : list (list string))
  : outcome BlockMap :=
  add_blocks (empty_blocks (flatten_set ta_rows)) block_rows.

(** [cleaned = set(row); if "" in cleaned: cleaned.remove("")] *)
Definition cleaned (row : list string) : Group :=
  list_to_set row ∖ {[""]}.

(** [load_project_data(ta_lst, students, proj_hist)] on the rows of the two
    files and, when there is a history file, its JSON object. *)
Definition load_project_data (ta_rows student_rows : list (list string))
    (proj_hist : option (gmap string (list string)))
  : gset string * list Group * HistoryMap :=
  let tas := flatten_set ta_rows ∖ {[""]} in
  let student_pairs := cleaned <$> student_rows in
  let history :=
    match proj_hist with
    | None => gset_to_gmap ∅ tas
    | Some history_raw => list_to_set <$> history_raw
    end in
  (tas, student_pairs, history).

(** The iteration order of a Python [set] is not specified; a function
    [order] from sets to lists stands for it wherever the code walks a set
    and the order shows, and [enumerates] is all that is known of it. *)
Definition enumerates (order : gset string → list string) : Prop :=
  ∀ S, NoDup (order S) ∧ ∀ x, x ∈ order S ↔ x ∈ S.

(** [json.dump({k: list(v) for k, v in curr_history.items()}, f)]: the
    object written to the history file. *)
Definition dump_history (order : gset string → list string)
    (curr_history : HistoryMap) : gmap string (list string) :=
  order <$> curr_history.

(** The operating system, as far as a run asks it anything.  Its answers
    are not in the program, so they are a parameter:
    - [directory_ready]: [if not os.path.exists(d): os.mkdir(d)] returns
      normally;
    - [assignment_file ta]: the outcome of
      [open(os.path.join(d, "{0}.csv".format(ta)), mode='w+')], [None] when
      the call raises (a login holding a path separator can name a
      directory that does not exist), otherwise the file the path names;
      two logins can name the same file;
    - [history_opens]: [open(fname, "w")] on the history file returns
      normally. *)
Record os_env : Type := OsEnv {
  directory_ready : bool;
  assignment_file : string → option string;
  history_opens : bool
}.

(** [update_project_history(curr_history, curr_groups, fname)] with a file
    name: the history is updated, then the file is opened and the object
    dumped.  The result is the updated history with the object written. *)
Definition update_project_history_to (env : os_env)
    (order : gset string → list string) (curr_history : HistoryMap)
    (curr_groups : Allocation)
  : outcome (HistoryMap * gmap string (list string)) :=
  history ← lift (update_project_history curr_history curr_groups);
  if history_opens env then Done (history, dump_history order history)
  else Failed OSError.

(** One turn of the loop of [download_project_assignments]: the file is
    opened for writing, which empties it, and [writer.writerows(groups)]
    writes one row per group, the students in the order the set yields
    them.  [files] maps the files written so far to their rows. *)
Definition write_assignment (env : os_env) (order : gset string → list string)
    (ta2groups : Allocation) (files : gmap string (list (list string)))
    (ta : string) : outcome (gmap string (list (list string))) :=
  match assignment_file env ta with
  | None => Failed OSError
  | Some file => Done (<[file := order <$> (ta2groups !!! ta)]> files)
  end.

Fixpoint write_assignments (env : os_env) (order : gset string → list string)
    (ta2groups : Allocation) (tas : list string)
    (files : gmap string (list (list string)))
  : outcome (gmap string (list (list string))) :=
  match tas with
  | [] => Done files
  | ta :: rest =>
      files' ← write_assignment env order ta2groups files ta;
      write_assignments env order ta2groups rest files'
  end.

(** [download_project_assignments(ta2groups, subdirectory_path)]: the
    directory is created if missing, then [ta2groups.items()] is walked, in
    the order [keys_order] gives to the keys.  The result maps every file
    written to the rows it holds at the end. *)
Definition download_project_assignments (env : os_env)
    (order keys_order : gset string → list string) (ta2groups : Allocation)
  : outcome (gmap string (list (list string))) :=
  if directory_ready env
  then write_assignments env order ta2groups (keys_order (dom ta2groups)) ∅
  else Failed OSError.

(** What a run leaves behind: the assignment files it wrote, the object in
    the history file and the messages of the placement loop. *)
Record run_output : Type := RunOutput {
  assignment_files : gmap string (list (list string));
  history_file : gmap string (list string);
  messages : list event
}.

(** [run_project(block_file, ta_file, student_file, assignment_directory,
    history_file)] on the parsed files; the history is always written. *)
Definition run_project (env : os_env)
    (order keys_order : gset string → list string)
    (block_rows ta_rows student_rows : list (list string))
    (proj_hist : option (gmap string (list string))) : outcome run_output :=
  blocks ← load_blocks block_rows ta_rows;
  let '(tas, student_pairs, history) :=
    load_project_data ta_rows student_rows proj_hist in
  st ← lift (assign_project (order tas) student_pairs history blocks);
  written ← update_project_history_to env order history st.1;
  files ← download_project_assignments env order keys_order st.1;
  Done (RunOutput files written.2 st.2).

(** An operating system that grants every request and gives every login a
    file of its own. *)
Definition plain_os : os_env := OsEnv true (λ ta, Some ta) true.

(** ** Properties of the conflict checker *)

Section conflict_checker.
Context {A : Type}.
Implicit Types (f : bool → A → bool) (P : A → Prop).

(** A loop that can only raise a flag ends with the flag up exactly when
    it started up or some turn raised it. *)
Lemma foldl_flag f P (l : list A) (b : bool) :
  (∀ b' x, f b' x = true ↔ b' = true ∨ P x) →
  foldl f b l = true ↔ b = true ∨ ∃ x, x ∈ l ∧ P x.
Proof.
  intros Hf. revert b. induction l as [|x l IH]; intros b; simpl.
  - split; [by left|]. intros [?|(x & Hx & _)]; [done|]. by apply elem_of_nil in Hx.
  - rewrite IH, Hf. split.
    + intros [[?|?]|(y & ? & ?)]; [by left|right; exists x|right; exists y];
        split; try done; [left|by right].
    + intros [?|(y & Hy & ?)]; [by left; left|].
      apply elem_of_cons in Hy as [->|?]; [left; by right|right; by exists y].
Qed.
End conflict_checker.

Lemma find_conflict_Some (ta student : string) (blocks : BlockMap) :
  is_Some (find_conflict ta student blocks) ↔ student ∈ blocks !!! ta.
Proof.
  unfold find_conflict.
  case_decide; split; first [done | by intros [? ?] | by eexists].
Qed.

Lemma conflicts_in_pair_true (ta : string) (blocks : BlockMap) (b : bool) (pair : Group) :
  conflicts_in_pair ta blocks b pair = true ↔
  b = true ∨ ∃ student, student ∈ pair ∧ student ∈ blocks !!! ta.
Proof.
  unfold conflicts_in_pair.
  rewrite (foldl_flag _ (λ student, student ∈ blocks !!! ta)).
  - by setoid_rewrite elem_of_elements.
  - intros b' x. rewrite <- find_conflict_Some.
    destruct (find_conflict ta x blocks); split; intros; try done.
    + right. by eexists.
    + by left.
    + destruct H as [?|[? ?]]; done.
Qed.

Lemma conflicts_in_groups_true (ta : string) (blocks : BlockMap) (b : bool)
    (group : list Group) :
  conflicts_in_groups ta blocks b group = true ↔
  b = true ∨ ∃ pair student, pair ∈ group ∧ student ∈ pair ∧ student ∈ blocks !!! ta.
Proof.
  unfold conflicts_in_groups.
  rewrite (foldl_flag _ (λ pair, ∃ student, student ∈ pair ∧ student ∈ blocks !!! ta)).
  - naive_solver.
  - intros. apply conflicts_in_pair_true.
Qed.

Lemma project_conflicts_true (ta2groups : Allocation) (blocks : BlockMap) :
  project_conflicts ta2groups blocks = true ↔
  ∃ ta group pair student,
    ta2groups !! ta = Some group ∧ pair ∈ group ∧ student ∈ pair ∧
    student ∈ blocks !!! ta.
Proof.
  unfold project_conflicts.
  rewrite (foldl_flag _ (λ item, ∃ pair student,
             pair ∈ item.2 ∧ student ∈ pair ∧ student ∈ blocks !!! item.1)).
  - split.
    + intros [?|([ta group] & Hin & pair & student & ?)]; [done|].
      apply elem_of_map_to_list in Hin. by exists ta, group, pair, student.
    + intros (ta & group & pair & student & Hin & ?). right.
      exists (ta, group). rewrite elem_of_map_to_list. naive_solver.
  - intros b' [ta group]. apply conflicts_in_groups_true.
Qed.

Lemma lookup_total_block_set (blocks : BlockMap) (ta student : string) :
  student ∈ blocks !!! ta ↔ ∃ B, blocks !! ta = Some B ∧ student ∈ B.
Proof.
  rewrite lookup_total_alt. destruct (blocks !! ta) as [B|]; simpl.
  - naive_solver.
  - split; [set_solver|]. by intros (? & ? & ?).
Qed.

(** C3.  The conflict checker is a total boolean function of the allocation
    and the block map: it returns [true] when some staff member has an
    assigned group containing a student of that staff member's block set,
    and [false] otherwise. *)
Theorem project_conflicts_spec (ta2groups : Allocation) (blocks : BlockMap) :
  (project_conflicts ta2groups blocks = true ↔
     ∃ ta group pair student B,
       ta2groups !! ta = Some group ∧ pair ∈ group ∧ student ∈ pair ∧
       blocks !! ta = Some B ∧ student ∈ B) ∧
  (project_conflicts ta2groups blocks = false ↔
     ¬ ∃ ta group pair student B,
       ta2groups !! ta = Some group ∧ pair ∈ group ∧ student ∈ pair ∧
       blocks !! ta = Some B ∧ student ∈ B).
Proof.
  assert (project_conflicts ta2groups blocks = true ↔
     ∃ ta group pair student B,
       ta2groups !! ta = Some group ∧ pair ∈ group ∧ student ∈ pair ∧
       blocks !! ta = Some B ∧ student ∈ B) as Htrue.
  { rewrite project_conflicts_true. setoid_rewrite lookup_total_block_set.
    naive_solver. }
  split; [done|]. rewrite <- Htrue.
  destruct (project_conflicts ta2groups blocks); naive_solver.
Qed.

(** ** Reasoning about [result] *)

Lemma bind_Ok {A B : Type} (r : result A) (k : A → result B) (b : B) :
  (r ≫= k) = Ok b ↔ ∃ a, r = Ok a ∧ k a = Ok b.
Proof.
  destruct r as [a|e]; simpl; split.
  - intros. by exists a.
  - by intros (? & [= ->] & ?).
  - done.
  - by intros (? & ? & ?).
Qed.

(** Splits a hypothesis [x ← r; k = Ok b] into the two successful halves. *)
Ltac bind_inv H :=
  let a := fresh "a" in
  let H1 := fresh H "_l" in
  apply bind_Ok in H as (a & H1 & H).

(** Reduces a bind whose first computation is a constructor. *)
Ltac simp_bind := cbn [mbind result_bind mret result_ret].

(** ** The allocator against the block map *)

Lemma assign_project_Ok (tas : list string) (student_pairs : list Group)
    (history : HistoryMap) (blocks : BlockMap) (st : Allocation * list event) :
  assign_project tas student_pairs history blocks = Ok st ↔
  ∃ max_groups_per_ta,
    ceil_div (length student_pairs) (length tas) = Ok max_groups_per_ta ∧
    assign_loop tas history blocks max_groups_per_ta
      (empty_allocation tas, []) student_pairs = Ok st ∧
    project_conflicts st.1 blocks = false.
Proof.
  unfold assign_project. split.
  - intros H. bind_inv H. bind_inv H.
    destruct (project_conflicts a0.1 blocks) eqn:Hc; [done|].
    injection H as ->. by exists a.
  - intros (cap & Hcap & Hloop & Hc).
    rewrite Hcap. simpl. rewrite Hloop. simpl. by rewrite Hc.
Qed.

(** C1.  Whenever the allocator returns, the conflict checker answers false
    on the returned allocation, and no student of a group in a staff member's
    list is in that staff member's block set. *)
Theorem assign_project_no_conflict (tas : list string)
    (student_pairs : list Group) (history : HistoryMap) (blocks : BlockMap)
    (ta2groups : Allocation) (out : list event) :
  assign_project tas student_pairs history blocks = Ok (ta2groups, out) →
  project_conflicts ta2groups blocks = false ∧
  ∀ ta group pair student B,
    ta2groups !! ta = Some group → pair ∈ group → student ∈ pair →
    blocks !! ta = Some B → student ∉ B.
Proof.
  intros (cap & _ & _ & Hc)%assign_project_Ok. simpl in Hc. split; [done|].
  intros ta group pair student B Hta Hpair Hstudent HB Hin.
  apply not_true_iff_false in Hc. apply Hc, project_conflicts_true.
  exists ta, group, pair, student. repeat split; try done.
  apply lookup_total_block_set. by exists B.
Qed.

(** Two staff who each block a student of the other's group: [Y] blocks
    [s1] and [X] blocks [s2].  The run returns, each group sits with the one
    staff member who does not block it, and swapping the two groups would
    break the conclusion. *)
Lemma assign_project_no_conflict_witness :
  assign_project [X; Y] [{[s1]}; {[s2]}]
      {[X := ∅; Y := ∅]} {[X := {[s2]}; Y := {[s1]}]}
    = Ok ({[X := [{[s1]}]; Y := [{[s2]}]]}, []) ∧
  (project_conflicts {[X := [{[s1]}]; Y := [{[s2]}]]}
      {[X := {[s2]}; Y := {[s1]}]} = false ∧
   ∀ ta group pair student B,
     ({[X := [{[s1]}]; Y := [{[s2]}]]} : Allocation) !! ta = Some group →
     pair ∈ group → student ∈ pair →
     ({[X := {[s2]}; Y := {[s1]}]} : BlockMap) !! ta = Some B → student ∉ B).
Proof.
  assert (assign_project [X; Y] [{[s1]}; {[s2]}]
      {[X := ∅; Y := ∅]} {[X := {[s2]}; Y := {[s1]}]}
    = Ok ({[X := [{[s1]}]; Y := [{[s2]}]]}, [])) as Hrun
    by (vm_compute; reflexivity).
  split; [exact Hrun|].
  exact (assign_project_no_conflict _ _ _ _ _ _ Hrun).
Defined.

(** C4 (divergence).  On Scenario B the first staff member of the candidate
    list is removed while the list is being walked, so the second one is
    never examined and survives; the group is placed with a blocked staff
    member and the closing assertion fails.  This holds for either iteration
    order of the staff set. *)
Theorem scenario_B_assertion_fails :
  assign_project [X; Y] [{[s1]}] {[X := ∅; Y := ∅]} {[X := {[s1]}; Y := {[s1]}]}
    = Raise AssertionError ∧
  assign_project [Y; X] [{[s1]}] {[X := ∅; Y := ∅]} {[X := {[s1]}; Y := {[s1]}]}
    = Raise AssertionError ∧
  surviving [X; Y] {[X := ∅; Y := ∅]} {[X := {[s1]}; Y := {[s1]}]}
      (empty_allocation [X; Y]) {[s1]} = Ok [Y].
Proof. repeat split; vm_compute; reflexivity. Qed.

(** C2 (divergence).  With the history of both staff members holding [s1]
    and no blocks, the same skipped candidate receives the group and the
    allocation is returned: the student [s1] is assigned to a staff member
    whose history already contains it.  This holds for either iteration
    order of the staff set. *)
Theorem history_repeat_returned :
  assign_project [X; Y] [{[s1]}] {[X := {[s1]}; Y := {[s1]}]} {[X := ∅; Y := ∅]}
    = Ok ({[X := []; Y := [{[s1]}]]}, []) ∧
  assign_project [Y; X] [{[s1]}] {[X := {[s1]}; Y := {[s1]}]} {[X := ∅; Y := ∅]}
    = Ok ({[X := [{[s1]}]; Y := []]}, []) ∧
  s1 ∈ ({[s1]} : Group) ∧
  ({[X := {[s1]}; Y := {[s1]}]} : HistoryMap) !! X = Some {[s1]} ∧
  ({[X := {[s1]}; Y := {[s1]}]} : HistoryMap) !! Y = Some {[s1]}.
Proof. repeat split; vm_compute; reflexivity. Qed.

(** C7 (as stated, refuted).  With an empty staff set the exception that
    reaches the caller is not a [ConfigurationError]. *)
Lemma empty_staff_not_ConfigurationError :
  ¬ ∃ e, assign_project [] [] ∅ ∅ = Raise e ∧ exn_name e = "ConfigurationError".
Proof. intros (e & [= <-] & Hname). discriminate Hname. Qed.

(** C7 (amended).  With an empty staff set the allocator never returns an
    allocation: the capacity computation divides by zero and the
    [ZeroDivisionError] reaches the caller, whatever the other arguments. *)
Theorem empty_staff_ZeroDivisionError (student_pairs : list Group)
    (history : HistoryMap) (blocks : BlockMap) :
  assign_project [] student_pairs history blocks = Raise ZeroDivisionError.
Proof. reflexivity. Qed.

(** ** The candidate list: sorting *)

Section sorting.
Context {A : Type} (key : A → nat).

Lemma insert_by_key_perm (x : A) (l : list A) : insert_by_key key x l ≡ₚ x :: l.
Proof.
  induction l as [|y l IH]; simpl; [done|].
  case_decide; [|done]. rewrite IH. apply Permutation_swap.
Qed.

Lemma sorted_perm (l : list A) : sorted key l ≡ₚ l.
Proof.
  induction l as [|x l IH]; simpl; [done|].
  by rewrite insert_by_key_perm, IH.
Qed.



(** Stability: a list that is already in ascending key order comes back
    unchanged, equal keys included. *)
Lemma sorted_id (l : list A) :
  StronglySorted (λ a b, key a ≤ key b) l → sorted key l = l.
Proof.
  induction 1 as [|x l Hl IH Hx]; simpl; [done|]. rewrite IH.
  destruct Hx as [|y l' Hy _]; simpl; [done|].
  rewrite decide_False by lia. done.
Qed.

End sorting.

(** ** The candidate list: filtering *)

Lemma remove_first_sublist (ta : string) (options : list string) :
  remove_first ta options `sublist_of` options.
Proof.
  induction options as [|t rest IH]; simpl; [done|].
  case_decide; [by apply sublist_cons|by apply sublist_skip].
Qed.

Lemma remove_first_length (ta : string) (options : list string) :
  ta ∈ options → S (length (remove_first ta options)) = length options.
Proof.
  induction options as [|t rest IH]; simpl; [by intros ?%elem_of_nil|].
  intros Hin. case_decide; [done|]. simpl. f_equal. apply IH.
  apply elem_of_cons in Hin as [->|?]; done.
Qed.

Lemma remove_first_NoDup (ta : string) (options : list string) :
  NoDup options → ta ∉ remove_first ta options.
Proof.
  induction 1 as [|t rest Ht Hrest IH]; simpl; [apply not_elem_of_nil|].
  case_decide as Heq; [by subst|]. rewrite not_elem_of_cons. by split.
Qed.

Lemma discard_sublist (ta : string) (options : list string) :
  discard ta options `sublist_of` options.
Proof. unfold discard. case_decide; [apply remove_first_sublist|done]. Qed.

Lemma discard_length (ta : string) (options : list string) :
  length options ≤ S (length (discard ta options)).
Proof.
  unfold discard. case_decide; [|lia]. by rewrite remove_first_length.
Qed.

Lemma discard_idemp (ta : string) (options : list string) :
  NoDup options → discard ta (discard ta options) = discard ta options.
Proof.
  intros Hnd. destruct (decide (ta ∈ options)) as [Hin|Hin].
  - assert (discard ta options = remove_first ta options) as ->
      by (unfold discard; by rewrite decide_True).
    unfold discard. rewrite decide_False; [done|by apply remove_first_NoDup].
  - assert (discard ta options = options) as ->
      by (unfold discard; by rewrite decide_False).
    unfold discard. by rewrite decide_False.
Qed.

Lemma check_student_cases (history : HistoryMap) (blocks : BlockMap)
    (ta student : string) (options options' : list string) :
  check_student history blocks ta options student = Ok options' →
  options' = options ∨ options' = discard ta options.
Proof.
  unfold check_student. intros H. bind_inv H.
  case_decide; [injection H as <-; by right|].
  bind_inv H. case_decide; injection H as <-; auto.
Qed.

(** Across the whole inner loop a candidate list without duplicates either
    is left as it was or loses exactly the staff member under examination. *)
Lemma check_students_cases (history : HistoryMap) (blocks : BlockMap)
    (ta : string) (students : list string) (options options' : list string) :
  NoDup options →
  check_students history blocks ta students options = Ok options' →
  options' = options ∨ options' = discard ta options.
Proof.
  revert options. induction students as [|student rest IH]; simpl;
    intros options Hnd H.
  - injection H as <-. by left.
  - bind_inv H. apply check_student_cases in H_l as [->| ->].
    + by apply IH.
    + apply IH in H as [->| ->].
      * by right.
      * right. by apply discard_idemp.
      * eapply sublist_NoDup; [done|apply discard_sublist].
Qed.

Lemma check_students_sublist (history : HistoryMap) (blocks : BlockMap)
    (ta : string) (students : list string) (options options' : list string) :
  check_students history blocks ta students options = Ok options' →
  options' `sublist_of` options.
Proof.
  revert options. induction students as [|student rest IH]; simpl;
    intros options H.
  - by injection H as <-.
  - bind_inv H. trans a; [by apply IH|].
    apply check_student_cases in H_l as [->| ->]; [done|apply discard_sublist].
Qed.

Lemma check_student_comm (history : HistoryMap) (blocks : BlockMap)
    (ta x y : string) (options : list string) :
  NoDup options →
  (o ← check_student history blocks ta options x;
   check_student history blocks ta o y)
  = (o ← check_student history blocks ta options y;
     check_student history blocks ta o x).
Proof.
  intros Hnd. unfold check_student, subscript.
  destruct (history !! ta) as [h|], (blocks !! ta) as [b|]; simp_bind;
    repeat (case_decide; simp_bind); rewrite ?discard_idemp by done; done.
Qed.

(** The inner loop walks a Python [set], whose order is unspecified: the
    outcome, exceptions included, does not depend on it. *)
Lemma check_students_perm (history : HistoryMap) (blocks : BlockMap)
    (ta : string) (students students' : list string) (options : list string) :
  students ≡ₚ students' → NoDup options →
  check_students history blocks ta students options
  = check_students history blocks ta students' options.
Proof.
  intros Hperm. revert options.
  induction Hperm as [|x l l' _ IH|x y l|l l' l'' _ IH1 _ IH2];
    intros options Hnd; cbn [check_students].
  - done.
  - destruct (check_student history blocks ta options x) as [o|e] eqn:Hx;
      simp_bind; [|done].
    apply IH. apply check_student_cases in Hx as [->| ->]; [done|].
    eapply sublist_NoDup; [done|apply discard_sublist].
  - pose proof (check_student_comm history blocks ta x y options Hnd) as Hcomm.
    destruct (check_student history blocks ta options x) as [ox|ex],
             (check_student history blocks ta options y) as [oy|ey];
      simp_bind; cbn [mbind result_bind] in Hcomm.
    + by rewrite Hcomm.
    + by rewrite Hcomm.
    + by rewrite <- Hcomm.
    + done.
  - by rewrite IH1, IH2.
Qed.

Lemma filter_options_sublist (fuel : nat) (history : HistoryMap)
    (blocks : BlockMap) (pair : Group) (i : nat) (options survivors : list string) :
  filter_options fuel history blocks pair i options = Ok survivors →
  survivors `sublist_of` options.
Proof.
  revert i options. induction fuel as [|fuel IH]; simpl; intros i options H.
  - by injection H as <-.
  - destruct (options !! i) as [ta|]; [|by injection H as <-].
    bind_inv H. trans a; [by eapply IH|by eapply check_students_sublist].
Qed.

(** The walk makes at most [length options - i] turns: any two amounts of
    [fuel] at least that large give the same answer. *)
Lemma filter_options_fuel (fuel fuel' : nat) (history : HistoryMap)
    (blocks : BlockMap) (pair : Group) (i : nat) (options : list string) :
  length options - i ≤ fuel → length options - i ≤ fuel' →
  filter_options fuel history blocks pair i options
  = filter_options fuel' history blocks pair i options.
Proof.
  revert fuel' i options.
  induction fuel as [|fuel IH]; intros [|fuel'] i options Hfuel Hfuel'; simpl;
    try done.
  - rewrite lookup_ge_None_2 by lia. done.
  - rewrite lookup_ge_None_2 by lia. done.
  - destruct (options !! i) as [ta|] eqn:Hi; [|done].
    apply lookup_lt_Some in Hi.
    destruct (check_students history blocks ta (elements pair) options)
      as [options'|e] eqn:Hcheck; simpl; [|done].
    apply check_students_sublist, sublist_length in Hcheck.
    apply IH; lia.
Qed.

(** ** The placement scan and the over-capacity choice *)

Lemma first_below_Some (ta2groups : Allocation) (cap : nat)
    (options : list string) (ta : string) :
  first_below ta2groups cap options = Some ta →
  ∃ before after,
    options = before ++ ta :: after ∧ load ta2groups ta < cap ∧
    ∀ t, t ∈ before → cap ≤ load ta2groups t.
Proof.
  induction options as [|t rest IH]; simpl; [done|].
  case_decide as Hcap.
  - intros (before & after & -> & ? & Hbefore)%IH.
    exists (t :: before), after. repeat split; [done|].
    intros t' [->|?]%elem_of_cons; auto.
  - intros [= ->]. exists [], rest. repeat split; [lia|].
    by intros t' ?%elem_of_nil.
Qed.

Lemma first_below_None (ta2groups : Allocation) (cap : nat)
    (options : list string) :
  first_below ta2groups cap options = None ↔
  ∀ t, t ∈ options → cap ≤ load ta2groups t.
Proof.
  induction options as [|t rest IH]; simpl.
  - split; [by intros _ t ?%elem_of_nil|done].
  - case_decide as Hcap.
    + rewrite IH. split.
      * intros H t' [->|?]%elem_of_cons; auto.
      * intros H t' ?. apply H. by right.
    + split; [done|]. intros H. destruct Hcap. apply H. by left.
Qed.

Lemma ltb_le (s t : string) : String.ltb s t = true → String.le s t.
Proof.
  unfold String.le, String.leb, String.ltb.
  by destruct (String.compare s t).
Qed.

Lemma ltb_false_le (s t : string) : String.ltb s t = false → String.le t s.
Proof.
  unfold String.le, String.leb, String.ltb.
  rewrite (String.compare_antisym s t).
  by destruct (String.compare t s).
Qed.

Lemma tuple_ltb_le (p q : nat * string) : tuple_ltb p q = true → tuple_le p q.
Proof.
  unfold tuple_ltb, tuple_le. case_decide.
  - intros ?%ltb_le. by right.
  - intros ?%bool_decide_eq_true. by left.
Qed.

Lemma tuple_ltb_false_le (p q : nat * string) :
  tuple_ltb p q = false → tuple_le q p.
Proof.
  unfold tuple_ltb, tuple_le. case_decide.
  - intros ?%ltb_false_le. by right.
  - intros ?%bool_decide_eq_false. left. lia.
Qed.

Lemma tuple_le_refl (p : nat * string) : tuple_le p p.
Proof. right. split; [done|]. reflexivity. Qed.

Lemma tuple_le_trans (p q r : nat * string) :
  tuple_le p q → tuple_le q r → tuple_le p r.
Proof.
  unfold tuple_le. intros [?|[? ?]] [?|[? ?]]; [left; lia..|].
  right. split; [congruence|]. by etrans.
Qed.

(** The running minimum of [min] is an item of the list and is below every
    item seen. *)
Lemma running_min_spec (best : nat * string) (items : list (nat * string)) :
  let m := foldl (λ best item, if tuple_ltb item best then item else best)
                 best items in
  m ∈ best :: items ∧ tuple_le m best ∧ ∀ q, q ∈ items → tuple_le m q.
Proof.
  revert best. induction items as [|item items IH]; intros best; simpl.
  - split; [by left|]. split; [apply tuple_le_refl|by intros q ?%elem_of_nil].
  - destruct (tuple_ltb item best) eqn:Hlt.
    + destruct (IH item) as (Hin & Hle & Hall). split; [by right|].
      apply tuple_ltb_le in Hlt. split; [by eapply tuple_le_trans|].
      intros q [->|?]%elem_of_cons; auto.
    + destruct (IH best) as (Hin & Hle & Hall). split.
      { apply elem_of_cons in Hin as [->|?]; [by left|by right; right]. }
      apply tuple_ltb_false_le in Hlt. split; [done|].
      intros q [->|?]%elem_of_cons; [by eapply tuple_le_trans|auto].
Qed.

Lemma smallest_option_spec (ta2groups : Allocation) (options : list string) :
  options ≠ [] →
  ∃ ta, smallest_option ta2groups options = Ok ta ∧ ta ∈ options ∧
        ∀ t, t ∈ options →
             tuple_le (load ta2groups ta, ta) (load ta2groups t, t).
Proof.
  destruct options as [|t0 rest]; [done|]. intros _.
  unfold smallest_option. simpl.
  pose proof (running_min_spec (load ta2groups t0, t0)
                ((λ t, (load ta2groups t, t)) <$> rest)) as (Hin & Hle & Hall).
  simpl in *.
  set (m := foldl _ _ _) in *.
  assert (∃ ta, ta ∈ t0 :: rest ∧ m = (load ta2groups ta, ta)) as (ta & Hta & Hm).
  { apply elem_of_cons in Hin as [->|Hin]; [exists t0; split; [by left|done]|].
    apply list_elem_of_fmap in Hin as (ta & -> & ?). exists ta. split; [by right|done]. }
  exists ta. rewrite Hm in *. split; [done|]. split; [done|].
  intros t [->|Ht]%elem_of_cons; [done|].
  apply Hall, list_elem_of_fmap. by exists t.
Qed.

Lemma surviving_sublist (tas : list string) (history : HistoryMap)
    (blocks : BlockMap) (ta2groups : Allocation) (pair : Group)
    (options : list string) :
  surviving tas history blocks ta2groups pair = Ok options →
  options `sublist_of` sorted (load ta2groups) tas.
Proof. apply filter_options_sublist. Qed.


Lemma surviving_subseteq (tas : list string) (history : HistoryMap)
    (blocks : BlockMap) (ta2groups : Allocation) (pair : Group)
    (options : list string) (ta : string) :
  surviving tas history blocks ta2groups pair = Ok options →
  ta ∈ options → ta ∈ tas.
Proof.
  intros H%surviving_sublist Hin. rewrite <- (sorted_perm (load ta2groups)).
  by eapply elem_of_sublist.
Qed.

(** What the loop body does once the candidates are known. *)
Lemma assign_pair_unplaceable (tas : list string) (history : HistoryMap)
    (blocks : BlockMap) (cap : nat) (ta2groups : Allocation)
    (out : list event) (pair : Group) :
  surviving tas history blocks ta2groups pair = Ok [] →
  assign_pair tas history blocks cap (ta2groups, out) pair
  = Ok (ta2groups, out ++ [NoOptions pair]).
Proof. unfold assign_pair. by intros ->. Qed.

Lemma assign_pair_below (tas : list string) (history : HistoryMap)
    (blocks : BlockMap) (cap : nat) (ta2groups : Allocation)
    (out : list event) (pair : Group) (options : list string) (ta : string) :
  surviving tas history blocks ta2groups pair = Ok options →
  options ≠ [] →
  first_below ta2groups cap options = Some ta →
  assign_pair tas history blocks cap (ta2groups, out) pair
  = Ok (append_pair ta pair ta2groups, out).
Proof.
  unfold assign_pair. intros -> Hne Hfirst. simpl.
  rewrite decide_False by (by destruct options). by rewrite Hfirst.
Qed.

Lemma assign_pair_over (tas : list string) (history : HistoryMap)
    (blocks : BlockMap) (cap : nat) (ta2groups : Allocation)
    (out : list event) (pair : Group) (options : list string) (ta : string) :
  surviving tas history blocks ta2groups pair = Ok options →
  options ≠ [] →
  first_below ta2groups cap options = None →
  smallest_option ta2groups options = Ok ta →
  assign_pair tas history blocks cap (ta2groups, out) pair
  = Ok (append_pair ta pair ta2groups, out ++ [OverCapacity pair]).
Proof.
  unfold assign_pair. intros -> Hne Hfirst Hsmall. simpl.
  rewrite decide_False by (by destruct options).
  rewrite Hfirst, Hsmall. done.
Qed.

Lemma ceiling_spec (n m : nat) :
  m ≠ 0 → n ≤ ceiling n m * m ∧ ∀ k, n ≤ k * m → ceiling n m ≤ k.
Proof.
  intros Hm. unfold ceiling. split.
  - pose proof (Nat.div_mod (n + m - 1) m Hm).
    pose proof (Nat.mod_upper_bound (n + m - 1) m Hm). nia.
  - intros k Hk. apply Nat.lt_succ_r, Nat.div_lt_upper_bound; [done|]. nia.
Qed.



(** C10.  When every surviving candidate is at or above the capacity, the
    loop body reports the over-capacity placement and assigns the group to
    the surviving candidate that has the least load and, among the
    candidates of that least load, the least identifier in the
    lexicographic order of strings: in the new allocation that candidate's
    list is its old list followed by the group, and every other staff
    member's list is what it was. *)
Theorem over_capacity_tie_break (tas : list string) (history : HistoryMap)
    (blocks : BlockMap) (cap : nat) (ta2groups : Allocation)
    (out : list event) (pair : Group) (options : list string) :
  surviving tas history blocks ta2groups pair = Ok options →
  options ≠ [] →
  (∀ t, t ∈ options → cap ≤ load ta2groups t) →
  ∃ ta ta2groups',
    assign_pair tas history blocks cap (ta2groups, out) pair
      = Ok (ta2groups', out ++ [OverCapacity pair]) ∧
    ta2groups' = append_pair ta pair ta2groups ∧
    ta2groups' !! ta = Some (ta2groups !!! ta ++ [pair]) ∧
    (∀ t, t ≠ ta → ta2groups' !! t = ta2groups !! t) ∧
    ta ∈ options ∧
    (∀ t, t ∈ options → load ta2groups ta ≤ load ta2groups t) ∧
    (∀ t, t ∈ options → load ta2groups t = load ta2groups ta → String.le ta t).
Proof.
  intros Hsurv Hne Hfull%first_below_None.
  destruct (smallest_option_spec ta2groups options Hne) as (ta & Hsm & Hin & Hmin).
  exists ta, (append_pair ta pair ta2groups).
  split; [by eapply assign_pair_over|]. split; [done|].
  split; [apply lookup_insert_eq|].
  split; [intros t Ht; by apply lookup_insert_ne|].
  split; [done|]. split.
  - intros t Ht. destruct (Hmin t Ht) as [?|[? _]]; simpl in *; lia.
  - intros t Ht Heq. destruct (Hmin t Ht) as [?|[_ ?]]; simpl in *; [lia|done].
Qed.

(** Three staff walked in the order [Z], [Y], [X] with capacity 1: [Z] and
    [Y] hold one group each, [X] is blocked for [s3] and its removal lets
    [Z] through unexamined; the survivors [Z; Y] are both full and the group
    goes to [Y], whose list becomes [{s2}; {s3}]. *)
Lemma over_capacity_tie_break_witness :
  ∃ ta ta2groups',
    assign_pair [Z; Y; X] {[X := ∅; Y := ∅; Z := ∅]}
      {[X := {[s3]}; Y := ∅; Z := ∅]} 1
      ({[X := []; Y := [{[s2]}]; Z := [{[s1]}]]}, []) {[s3]}
      = Ok (ta2groups', [OverCapacity {[s3]}]) ∧
    ta2groups' !! ta
      = Some (({[X := []; Y := [{[s2]}]; Z := [{[s1]}]]} : Allocation) !!! ta
              ++ [{[s3]}]) ∧
    ta ∈ [Z; Y] ∧ String.le ta Z ∧ String.le ta Y.
Proof.
  destruct (over_capacity_tie_break [Z; Y; X] {[X := ∅; Y := ∅; Z := ∅]}
              {[X := {[s3]}; Y := ∅; Z := ∅]} 1
              {[X := []; Y := [{[s2]}]; Z := [{[s1]}]]} [] {[s3]} [Z; Y])
    as (ta & ta2groups' & Hrun & _ & Hlist & _ & Hin & _ & Htie).
  - vm_compute; reflexivity.
  - discriminate.
  - intros t [->|[->|[]%elem_of_nil]%elem_of_cons]%elem_of_cons;
      vm_compute; lia.
  - exists ta, ta2groups'. split; [exact Hrun|]. split; [exact Hlist|].
    split; [exact Hin|].
    assert (load {[X := []; Y := [{[s2]}]; Z := [{[s1]}]]} ta = 1) as Hload.
    { apply elem_of_cons in Hin as [->|Hin]; [vm_compute; reflexivity|].
      apply elem_of_cons in Hin as [->|Hin]; [vm_compute; reflexivity|].
      by apply elem_of_nil in Hin. }
    split; apply Htie; rewrite ?Hload;
      first [by left | by right; left | vm_compute; reflexivity].
Defined.

(** ** Groups without a surviving candidate *)

(** Past the first turn of the walk the candidate list cannot become empty:
    a turn at index [i ≥ 1] needs more than [i] candidates and removes at
    most one. *)
Lemma filter_options_nonempty (fuel : nat) (history : HistoryMap)
    (blocks : BlockMap) (pair : Group) (i : nat) (options survivors : list string) :
  NoDup options → 0 < i → options ≠ [] →
  filter_options fuel history blocks pair i options = Ok survivors →
  survivors ≠ [].
Proof.
  revert i options. induction fuel as [|fuel IH]; simpl;
    intros i options Hnd Hi Hne H.
  - by injection H as <-.
  - destruct (options !! i) as [ta|] eqn:Hta; [|by injection H as <-].
    apply lookup_lt_Some in Hta. bind_inv H.
    assert (length options ≤ S (length a)) as Hlen.
    { apply check_students_cases in H_l as [->| ->]; [lia|apply discard_length|done]. }
    eapply (IH (S i) a); [|lia| |done].
    + eapply sublist_NoDup; [done|by eapply check_students_sublist].
    + destruct a; [simpl in Hlen; lia|done].
Qed.

(** Every candidate can be filtered out only when there is a single one. *)
Lemma surviving_nil (tas : list string) (history : HistoryMap)
    (blocks : BlockMap) (ta2groups : Allocation) (pair : Group) :
  NoDup tas → tas ≠ [] →
  surviving tas history blocks ta2groups pair = Ok [] →
  ∃ t0, tas = [t0].
Proof.
  intros Hnd Hne. unfold surviving.
  pose proof (sorted_perm (load ta2groups) tas) as Hperm.
  destruct (sorted (load ta2groups) tas) as [|t0 rest] eqn:Hsorted.
  { by apply Permutation_nil_l in Hperm. }
  rewrite <- Hperm in Hnd. simpl. intros H. bind_inv H.
  destruct (decide (a = [])) as [->|Ha].
  - apply check_students_cases in H_l as [?|Hd]; [done| |done].
    unfold discard in Hd. rewrite decide_True in Hd by (by left).
    simpl in Hd. rewrite decide_True in Hd by done. subst rest.
    exists t0. by apply Permutation_singleton_l in Hperm.
  - eapply filter_options_nonempty in H; [done| |lia|done].
    eapply sublist_NoDup; [done|by eapply check_students_sublist].
Qed.

(** With two or more staff members the walk always leaves a candidate,
    whatever the blocks and the history say. *)
Lemma surviving_nonempty (tas : list string) (history : HistoryMap)
    (blocks : BlockMap) (ta2groups : Allocation) (pair : Group)
    (options : list string) :
  NoDup tas → 2 ≤ length tas →
  surviving tas history blocks ta2groups pair = Ok options → options ≠ [].
Proof.
  intros Hnd Hlen Hsurv ->.
  destruct (surviving_nil tas history blocks ta2groups pair) as (t0 & ->);
    [done| |done|simpl in Hlen; lia].
  intros ->. simpl in Hlen. lia.
Qed.

Lemma assign_loop_app (tas : list string) (history : HistoryMap)
    (blocks : BlockMap) (cap : nat) (st : Allocation * list event)
    (pairs pairs' : list Group) :
  assign_loop tas history blocks cap st (pairs ++ pairs')
  = (st' ← assign_loop tas history blocks cap st pairs;
     assign_loop tas history blocks cap st' pairs').
Proof.
  revert st. induction pairs as [|pr pairs IH]; intros st; simpl; [done|].
  destruct (assign_pair tas history blocks cap st pr); simpl; [apply IH|done].
Qed.

Lemma assign_pair_output (tas : list string) (history : HistoryMap)
    (blocks : BlockMap) (cap : nat) (ta2groups ta2groups' : Allocation)
    (out out' : list event) (pair : Group) :
  assign_pair tas history blocks cap (ta2groups, out) pair = Ok (ta2groups', out') →
  ∃ more, out' = out ++ more.
Proof.
  unfold assign_pair. intros H. bind_inv H.
  case_decide; [injection H as <- <-; by eexists|].
  destruct (first_below ta2groups cap a).
  - injection H as <- <-. exists []. by rewrite app_nil_r.
  - bind_inv H. injection H as <- <-. by eexists.
Qed.

Lemma assign_loop_output (tas : list string) (history : HistoryMap)
    (blocks : BlockMap) (cap : nat) (pairs : list Group)
    (ta2groups ta2groups' : Allocation) (out out' : list event) :
  assign_loop tas history blocks cap (ta2groups, out) pairs = Ok (ta2groups', out') →
  ∃ more, out' = out ++ more.
Proof.
  revert ta2groups out. induction pairs as [|pr pairs IH]; simpl;
    intros ta2groups out H.
  - injection H as <- <-. exists []. by rewrite app_nil_r.
  - bind_inv H. destruct a as [a out1].
    apply assign_pair_output in H_l as (more1 & ->).
    apply IH in H as (more & ->). exists (more1 ++ more). by rewrite (assoc_L (++)).
Qed.

Lemma append_pair_lookup (ta ta' : string) (pair : Group)
    (ta2groups : Allocation) (group : list Group) :
  append_pair ta pair ta2groups !! ta' = Some group →
  ta2groups !! ta' = Some group ∨
  (ta' = ta ∧ group = ta2groups !!! ta ++ [pair]).
Proof.
  unfold append_pair. rewrite lookup_insert. case_decide as Heq.
  - intros [= <-]. by right.
  - by left.
Qed.

(** Every group found in an allocation built by the loop had, when it was
    placed, at least one surviving candidate. *)
Lemma assign_pair_placed (tas : list string) (history : HistoryMap)
    (blocks : BlockMap) (cap : nat) (ta2groups ta2groups' : Allocation)
    (out out' : list event) (pair : Group) :
  (∀ ta group g, ta2groups !! ta = Some group → g ∈ group →
     ∃ a options, surviving tas history blocks a g = Ok options ∧ options ≠ []) →
  assign_pair tas history blocks cap (ta2groups, out) pair = Ok (ta2groups', out') →
  ∀ ta group g, ta2groups' !! ta = Some group → g ∈ group →
    ∃ a options, surviving tas history blocks a g = Ok options ∧ options ≠ [].
Proof.
  intros Hinv H. unfold assign_pair in H.
  destruct (surviving tas history blocks ta2groups pair) as [options|]
    eqn:Hsurv; [simpl in H|done].
  case_decide as Hlen; [by injection H as <- <-|].
  assert (options ≠ []) as Hne by (by intros ->).
  assert (∀ t ta group g,
            append_pair t pair ta2groups !! ta = Some group → g ∈ group →
            ∃ a options, surviving tas history blocks a g = Ok options
                         ∧ options ≠ []) as Happ.
  { intros t ta group g [Hold|[-> ->]]%append_pair_lookup Hg; [by eapply Hinv|].
    apply elem_of_app in Hg as [Hg|Hg%list_elem_of_singleton].
    - rewrite lookup_total_alt in Hg.
      destruct (ta2groups !! t) as [l|] eqn:Hl; simpl in Hg;
        [by eapply Hinv|by apply elem_of_nil in Hg].
    - subst g. by exists ta2groups, options. }
  destruct (first_below ta2groups cap options) as [t|].
  - injection H as <- <-. apply Happ.
  - bind_inv H. injection H as <- <-. apply Happ.
Qed.

Lemma assign_loop_placed (tas : list string) (history : HistoryMap)
    (blocks : BlockMap) (cap : nat) (pairs : list Group)
    (ta2groups ta2groups' : Allocation) (out out' : list event) :
  (∀ ta group g, ta2groups !! ta = Some group → g ∈ group →
     ∃ a options, surviving tas history blocks a g = Ok options ∧ options ≠ []) →
  assign_loop tas history blocks cap (ta2groups, out) pairs = Ok (ta2groups', out') →
  ∀ ta group g, ta2groups' !! ta = Some group → g ∈ group →
    ∃ a options, surviving tas history blocks a g = Ok options ∧ options ≠ [].
Proof.
  revert ta2groups out. induction pairs as [|pr pairs IH]; simpl;
    intros ta2groups out Hinv H.
  - by injection H as <- <-.
  - bind_inv H. destruct a as [a out1]. eapply IH; [|done].
    by eapply assign_pair_placed.
Qed.

Lemma empty_allocation_lookup (tas : list string) (ta : string)
    (group : list Group) :
  empty_allocation tas !! ta = Some group → ta ∈ tas ∧ group = [].
Proof.
  unfold empty_allocation. induction tas as [|t tas IH]; simpl; [done|].
  rewrite lookup_insert. case_decide as Heq.
  - intros [= <-]. subst. split; [by left|done].
  - intros [? ?]%IH. split; [by right|done].
Qed.

(** ** The keys of the allocation *)

Lemma empty_allocation_dom (tas : list string) :
  dom (empty_allocation tas) = list_to_set tas.
Proof.
  unfold empty_allocation. rewrite dom_list_to_map_L.
  f_equal. induction tas as [|t tas IH]; simpl; [done|]. by f_equal.
Qed.

Lemma assign_pair_dom (tas : list string) (history : HistoryMap)
    (blocks : BlockMap) (cap : nat) (ta2groups ta2groups' : Allocation)
    (out out' : list event) (pair : Group) :
  dom ta2groups = list_to_set tas →
  assign_pair tas history blocks cap (ta2groups, out) pair = Ok (ta2groups', out') →
  dom ta2groups' = list_to_set tas.
Proof.
  intros Hdom H. unfold assign_pair in H.
  destruct (surviving tas history blocks ta2groups pair) as [options|]
    eqn:Hsurv; [simpl in H|done].
  case_decide as Hlen; [by injection H as <- <-|].
  assert (options ≠ []) as Hne by (by intros ->).
  assert (∀ t, t ∈ options →
            dom (append_pair t pair ta2groups) = list_to_set tas) as Happ.
  { intros t Ht. unfold append_pair. rewrite dom_insert_L, Hdom.
    apply (surviving_subseteq _ _ _ _ _ _ _ Hsurv) in Ht. set_solver. }
  destruct (first_below ta2groups cap options) as [t|] eqn:Hfirst.
  - injection H as <- <-. apply Happ.
    apply first_below_Some in Hfirst as (before & after & -> & _).
    apply elem_of_app. right. by left.
  - bind_inv H. injection H as <- <-. apply Happ.
    destruct (smallest_option_spec ta2groups options Hne) as (t & Ht & ? & _).
    congruence.
Qed.

(** The allocation keeps exactly the staff as its keys throughout the loop,
    so no subscript [ta2groups[ta]] of the source can raise. *)
Lemma assign_loop_dom (tas : list string) (history : HistoryMap)
    (blocks : BlockMap) (cap : nat) (pairs : list Group)
    (ta2groups ta2groups' : Allocation) (out out' : list event) :
  dom ta2groups = list_to_set tas →
  assign_loop tas history blocks cap (ta2groups, out) pairs = Ok (ta2groups', out') →
  dom ta2groups' = list_to_set tas.
Proof.
  revert ta2groups out. induction pairs as [|pr pairs IH]; simpl;
    intros ta2groups out Hdom H.
  - by injection H as <- <-.
  - bind_inv H. destruct a as [a out1]. eapply IH; [|done].
    by eapply assign_pair_dom.
Qed.

(** What the loop does when the candidate list comes out empty (by
    [surviving_nil] this needs a single staff member): the loop body does
    not raise, it reports the group and leaves the allocation as it was;
    the run goes on with the groups after it; and if the allocator returns,
    the report is in its output and the group is in no staff member's
    list. *)
Theorem unplaceable_group_skipped (tas : list string) (pre : list Group)
    (pair : Group) (post : list Group) (history : HistoryMap)
    (blocks : BlockMap) (cap : nat) (ta2groups : Allocation)
    (out : list event) :
  NoDup tas →
  ceil_div (length (pre ++ pair :: post)) (length tas) = Ok cap →
  assign_loop tas history blocks cap (empty_allocation tas, []) pre
    = Ok (ta2groups, out) →
  surviving tas history blocks ta2groups pair = Ok [] →
  assign_pair tas history blocks cap (ta2groups, out) pair
    = Ok (ta2groups, out ++ [NoOptions pair]) ∧
  assign_loop tas history blocks cap (empty_allocation tas, [])
      (pre ++ pair :: post)
    = assign_loop tas history blocks cap
        (ta2groups, out ++ [NoOptions pair]) post ∧
  ∀ ta2groups' out',
    assign_project tas (pre ++ pair :: post) history blocks
      = Ok (ta2groups', out') →
    NoOptions pair ∈ out' ∧
    ∀ ta group, ta2groups' !! ta = Some group → pair ∉ group.
Proof.
  intros Hnd Hcap Hpre Hsurv.
  pose proof (assign_pair_unplaceable tas history blocks cap ta2groups out
                pair Hsurv) as Hstep.
  assert (assign_loop tas history blocks cap (empty_allocation tas, [])
            (pre ++ pair :: post)
          = assign_loop tas history blocks cap
              (ta2groups, out ++ [NoOptions pair]) post) as Hloop.
  { rewrite assign_loop_app, Hpre.
    transitivity (st' ← assign_pair tas history blocks cap (ta2groups, out) pair;
                  assign_loop tas history blocks cap st' post); [done|].
    by rewrite Hstep. }
  split; [done|]. split; [done|].
  intros ta2groups' out' (cap' & Hcap' & Hrun & _)%assign_project_Ok.
  assert (cap' = cap) as -> by congruence. rewrite Hloop in Hrun. split.
  - apply assign_loop_output in Hrun as (more & ->).
    apply elem_of_app. left. apply elem_of_app. right. by left.
  - intros ta group Hgroup Hin.
    assert (tas ≠ []) as Hne.
    { intros ->. unfold ceil_div in Hcap. by rewrite decide_True in Hcap. }
    destruct (surviving_nil _ _ _ _ _ Hnd Hne Hsurv) as (t0 & ->).
    rewrite <- Hloop in Hrun.
    assert (∃ a options, surviving [t0] history blocks a pair = Ok options
                         ∧ options ≠ []) as (a & options & Ha & Hoptions).
    { eapply assign_loop_placed; [|exact Hrun|exact Hgroup|exact Hin].
      intros t l g [_ ->]%empty_allocation_lookup Hg.
      by apply elem_of_nil in Hg. }
    change (surviving [t0] history blocks a pair)
      with (surviving [t0] history blocks ta2groups pair) in Ha.
    congruence.
Qed.

(** Scenario C of the specification: the only staff member has already had
    [s1], whose group is reported and skipped; the group of [s2] is placed. *)
Lemma unplaceable_group_skipped_witness :
  assign_project [X] [{[s1]}; {[s2]}] {[X := {[s1]}]} {[X := ∅]}
    = Ok ({[X := [{[s2]}]]}, [NoOptions {[s1]}]) ∧
  NoOptions {[s1]} ∈ [NoOptions {[s1]}] ∧
  ∀ ta group,
    ({[X := [{[s2]}]]} : Allocation) !! ta = Some group → {[s1]} ∉ group.
Proof.
  assert (assign_project [X] [{[s1]}; {[s2]}] {[X := {[s1]}]} {[X := ∅]}
    = Ok ({[X := [{[s2]}]]}, [NoOptions {[s1]}])) as Hrun
    by (vm_compute; reflexivity).
  split; [exact Hrun|].
  destruct (unplaceable_group_skipped [X] [] {[s1]} [{[s2]}]
              {[X := {[s1]}]} {[X := ∅]} 2 (empty_allocation [X]) [])
    as (_ & _ & Hfinal).
  - apply NoDup_singleton.
  - vm_compute; reflexivity.
  - reflexivity.
  - vm_compute; reflexivity.
  - exact (Hfinal _ _ Hrun).
Defined.

(** C6 (divergence).  Two staff members, both with [s1] in their block set
    (or both with [s1] in their history), and the groups [{s1}], [{s2}]: no
    staff member is admissible for [{s1}], yet the walk removes the first
    candidate and never examines the second, so the candidate list is not
    empty.  The loop body prints nothing and appends the group to the
    unexamined staff member.  With the blocks the closing assertion then
    fails and the allocator raises; with the history it returns an
    allocation that holds the group.  This is so for either iteration order
    of the staff set. *)
Theorem all_conflicting_group_placed :
  surviving [X; Y] {[X := ∅; Y := ∅]} {[X := {[s1]}; Y := {[s1]}]}
      (empty_allocation [X; Y]) {[s1]} = Ok [Y] ∧
  assign_pair [X; Y] {[X := ∅; Y := ∅]} {[X := {[s1]}; Y := {[s1]}]} 1
      (empty_allocation [X; Y], []) {[s1]}
    = Ok ({[X := []; Y := [{[s1]}]]}, []) ∧
  assign_project [X; Y] [{[s1]}; {[s2]}]
      {[X := ∅; Y := ∅]} {[X := {[s1]}; Y := {[s1]}]} = Raise AssertionError ∧
  assign_project [Y; X] [{[s1]}; {[s2]}]
      {[X := ∅; Y := ∅]} {[X := {[s1]}; Y := {[s1]}]} = Raise AssertionError ∧
  assign_project [X; Y] [{[s1]}; {[s2]}]
      {[X := {[s1]}; Y := {[s1]}]} {[X := ∅; Y := ∅]}
    = Ok ({[X := [{[s2]}]; Y := [{[s1]}]]}, []) ∧
  assign_project [Y; X] [{[s1]}; {[s2]}]
      {[X := {[s1]}; Y := {[s1]}]} {[X := ∅; Y := ∅]}
    = Ok ({[X := [{[s1]}]; Y := [{[s2]}]]}, []).
Proof. repeat split; vm_compute; reflexivity. Qed.

(** ** The history updater *)

Lemma alter_union_lookup (X : gset string) (ta t : string) (h : HistoryMap) :
  alter (λ seen, seen ∪ X) ta h !! t
  = if decide (ta = t) then (λ seen, seen ∪ X) <$> h !! t else h !! t.
Proof. rewrite lookup_alter. by case_decide; subst. Qed.

Lemma alter_union_empty (ta : string) (h : HistoryMap) :
  alter (λ seen, seen ∪ ∅) ta h = h.
Proof.
  apply map_eq. intros t. rewrite alter_union_lookup. case_decide; [|done].
  destruct (h !! t); simpl; [|done]. f_equal. set_solver.
Qed.

Lemma alter_union_missing (X : gset string) (ta : string) (h : HistoryMap) :
  h !! ta = None → alter (λ seen, seen ∪ X) ta h = h.
Proof.
  intros Hta. apply map_eq. intros t. rewrite alter_union_lookup.
  case_decide; [|done]. subst. by rewrite Hta.
Qed.

Lemma alter_union_twice (X1 X2 : gset string) (ta : string) (h : HistoryMap) :
  alter (λ seen, seen ∪ X2) ta (alter (λ seen, seen ∪ X1) ta h)
  = alter (λ seen, seen ∪ (X1 ∪ X2)) ta h.
Proof.
  apply map_eq. intros t. rewrite !alter_union_lookup.
  case_decide; [|done]. destruct (h !! t); simpl; [|done]. f_equal. set_solver.
Qed.

Lemma add_student_spec (ta : string) (h : HistoryMap) (student : string) :
  add_student ta h student
  = match h !! ta with
    | Some _ => Ok (alter (λ seen, seen ∪ {[student]}) ta h)
    | None => Raise KeyError
    end.
Proof.
  unfold add_student, subscript. destruct (h !! ta) as [seen|] eqn:Hta; [|done].
  simpl. f_equal. apply map_eq. intros t.
  rewrite lookup_insert, alter_union_lookup. case_decide; [|done].
  subst. by rewrite Hta.
Qed.

Lemma add_students_spec (ta : string) (h : HistoryMap) (students : list string) :
  add_students ta h students
  = if decide (students = [] ∨ is_Some (h !! ta))
    then Ok (alter (λ seen, seen ∪ list_to_set students) ta h)
    else Raise KeyError.
Proof.
  revert h. induction students as [|student rest IH]; intros h;
    cbn [add_students].
  - rewrite decide_True by (by left). cbn [list_to_set foldr].
    by rewrite alter_union_empty.
  - rewrite add_student_spec. destruct (h !! ta) as [seen|] eqn:Hta; simp_bind.
    + rewrite IH, !decide_True; [|right..].
      * cbn [list_to_set foldr]. by rewrite alter_union_twice.
      * by eexists.
      * rewrite alter_union_lookup, decide_True, Hta by done. by eexists.
    + rewrite decide_False; [done|]. intros [?|[? ?]]; done.
Qed.

Lemma add_groups_spec (ta : string) (h : HistoryMap) (groups : list Group) :
  add_groups ta h groups
  = if decide (⋃ groups = ∅ ∨ is_Some (h !! ta))
    then Ok (alter (λ seen, seen ∪ ⋃ groups) ta h)
    else Raise KeyError.
Proof.
  revert h. induction groups as [|pr rest IH]; intros h; cbn [add_groups].
  - rewrite decide_True by (by left). rewrite union_list_nil.
    by rewrite alter_union_empty.
  - rewrite add_students_spec, list_to_set_elements_L, union_list_cons.
    destruct (h !! ta) as [seen|] eqn:Hta.
    + rewrite decide_True by (right; by eexists). simp_bind.
      rewrite IH, !decide_True; [|right..].
      * by rewrite alter_union_twice.
      * by eexists.
      * rewrite alter_union_lookup, decide_True, Hta by done. by eexists.
    + destruct (decide (pr = ∅)) as [->|Hpr].
      * rewrite decide_True by (left; apply elements_empty). simp_bind.
        rewrite IH, alter_union_missing, Hta by done.
        assert (∅ ∪ ⋃ rest = ⋃ rest) as -> by set_solver.
        case_decide; [|done]. by rewrite !alter_union_missing.
      * rewrite !decide_False; [done|..].
        -- intros [Hempty|[? ?]]; [|done]. apply Hpr.
           apply empty_union_L in Hempty. tauto.
        -- intros [Hempty|[? ?]]; [|done]. apply Hpr.
           by apply leibniz_equiv, elements_empty_inv.
Qed.

(** The effect of the outer loop on a list of items of the allocation. *)
Lemma add_items_spec (h : HistoryMap) (items : list (string * list Group)) :
  add_items h items
  = if decide (Forall (λ item, ⋃ item.2 = ∅ ∨ is_Some (h !! item.1)) items)
    then Ok (foldl (λ h' item, alter (λ seen, seen ∪ ⋃ item.2) item.1 h')
                   h items)
    else Raise KeyError.
Proof.
  revert h. induction items as [|[ta groups] items IH]; intros h;
    cbn [add_items].
  - by rewrite decide_True.
  - rewrite add_groups_spec. case_decide as Hhead; simp_bind.
    + rewrite IH. cbn [foldl fst snd].
      assert (Forall (λ item, ⋃ item.2 = ∅ ∨
                is_Some (alter (λ seen, seen ∪ ⋃ groups) ta h !! item.1)) items
              ↔ Forall (λ item, ⋃ item.2 = ∅ ∨ is_Some (h !! item.1))
                  ((ta, groups) :: items)) as Hiff.
      { rewrite Forall_cons. cbn [fst snd]. split.
        - intros H. split; [done|]. eapply Forall_impl; [exact H|].
          intros item [?|Hsome]; [by left|right].
          rewrite alter_union_lookup in Hsome.
          case_decide; [|done]. subst. by apply fmap_is_Some in Hsome.
        - intros [_ H]. eapply Forall_impl; [exact H|].
          intros item [?|Hsome]; [by left|right].
          rewrite alter_union_lookup. case_decide; [|done].
          subst. by apply fmap_is_Some. }
      destruct (decide (Forall _ items)) as [Hl|Hl];
        destruct (decide (Forall _ (_ :: items))) as [Hr|Hr]; try done.
      * destruct Hr. by apply Hiff.
      * destruct Hl. by apply Hiff.
    + rewrite decide_False; [done|]. intros [? _]%Forall_cons. done.
Qed.

Lemma foldl_alter_lookup (h : HistoryMap) (items : list (string * list Group))
    (ta : string) :
  NoDup items.*1 →
  foldl (λ h' item, alter (λ seen, seen ∪ ⋃ item.2) item.1 h') h items !! ta
  = (λ seen, seen ∪ ⋃ (default [] (list_to_map (M := Allocation) items !! ta)))
      <$> h !! ta.
Proof.
  revert h. induction items as [|[t groups] items IH]; intros h;
    cbn [foldl fmap list_fmap fst snd list_to_map foldr].
  - intros _. rewrite lookup_empty. cbn [default].
    destruct (h !! ta); cbn [fmap option_fmap option_map]; [|done].
    f_equal. set_solver.
  - intros [Ht Hnd]%NoDup_cons. rewrite IH by done.
    rewrite alter_union_lookup, lookup_insert. case_decide; [subst t|done].
    rewrite (not_elem_of_list_to_map_1 items ta) by done. cbn [default].
    destruct (h !! ta); cbn [fmap option_fmap option_map]; [|done].
    f_equal. set_solver.
Qed.

(** The updater returns exactly when every staff member who is assigned a
    student has a history entry, and then returns the merged history. *)
Lemma update_project_history_Ok (curr_history : HistoryMap)
    (curr_groups : Allocation) (updated : HistoryMap) :
  update_project_history curr_history curr_groups = Ok updated ↔
  (∀ ta groups, curr_groups !! ta = Some groups →
     ⋃ groups = ∅ ∨ is_Some (curr_history !! ta)) ∧
  updated = merged_history curr_history curr_groups.
Proof.
  unfold update_project_history. rewrite add_items_spec.
  assert (Forall (λ item : string * list Group,
                    ⋃ item.2 = ∅ ∨ is_Some (curr_history !! item.1))
                 (map_to_list curr_groups)
          ↔ ∀ ta groups, curr_groups !! ta = Some groups →
              ⋃ groups = ∅ ∨ is_Some (curr_history !! ta)) as Hiff.
  { rewrite Forall_forall. split.
    - intros H ta groups Hta. by apply (H (ta, groups)), elem_of_map_to_list.
    - intros H [ta groups] Hin%elem_of_map_to_list. by apply H. }
  assert (foldl (λ h' item, alter (λ seen, seen ∪ ⋃ item.2) item.1 h')
            curr_history (map_to_list curr_groups)
          = merged_history curr_history curr_groups) as ->.
  { apply map_eq. intros ta.
    rewrite foldl_alter_lookup by apply NoDup_fst_map_to_list.
    unfold merged_history.
    rewrite list_to_map_to_list, map_lookup_imap, lookup_total_alt.
    by destruct (curr_history !! ta). }
  case_decide as Hall; rewrite Hiff in Hall; split.
  - intros [= <-]. done.
  - by intros [_ ->].
  - done.
  - by intros [? _].
Qed.

Lemma merged_history_lookup (history : HistoryMap) (allocation : Allocation)
    (ta : string) :
  merged_history history allocation !! ta
  = (λ seen, seen ∪ ⋃ (allocation !!! ta)) <$> history !! ta.
Proof.
  unfold merged_history. rewrite map_lookup_imap.
  by destruct (history !! ta).
Qed.

(** C8.  When the history and the allocation have the same staff keys, the
    updater returns a history with those keys in which every staff member's
    set is the union of the prior set with all students of all groups
    assigned to them; and on Scenario D, allocation [{X: [{s1,s2}]}] with
    prior history [{X: {s3}}], it returns [{X: {s1,s2,s3}}]. *)
Theorem update_project_history_union :
  (∀ (history : HistoryMap) (allocation : Allocation),
     dom history =@{gset string} dom allocation →
     ∃ updated,
       update_project_history history allocation = Ok updated ∧
       dom updated = dom history ∧
       ∀ ta seen groups,
         history !! ta = Some seen → allocation !! ta = Some groups →
         updated !! ta = Some (seen ∪ ⋃ groups)) ∧
  update_project_history {[X := {[s3]}]} {[X := [{[s1; s2]}]]}
    = Ok {[X := {[s1; s2; s3]}]}.
Proof.
  split; [|vm_compute; reflexivity].
  intros history allocation Hdom.
  exists (merged_history history allocation). split; [|split].
  - apply update_project_history_Ok. split; [|done].
    intros ta groups Hta. right. apply elem_of_dom. rewrite Hdom.
    apply elem_of_dom. by eexists.
  - apply set_eq. intros ta.
    by rewrite !elem_of_dom, merged_history_lookup, fmap_is_Some.
  - intros ta seen groups Hseen Hgroups.
    rewrite merged_history_lookup, Hseen.
    by rewrite (lookup_total_correct _ _ _ Hgroups).
Qed.

Lemma update_project_history_union_witness :
  ∃ updated,
    update_project_history {[X := {[s3]}]} {[X := [{[s1; s2]}]]} = Ok updated ∧
    dom updated = dom ({[X := {[s3]}]} : HistoryMap) ∧
    ∀ ta seen groups,
      ({[X := {[s3]}]} : HistoryMap) !! ta = Some seen →
      ({[X := [{[s1; s2]}]]} : Allocation) !! ta = Some groups →
      updated !! ta = Some (seen ∪ ⋃ groups).
Proof.
  apply (proj1 update_project_history_union). vm_compute; reflexivity.
Defined.

(** C9.  Whenever the updater returns, running it again on its own result
    with the same allocation returns that same history, and every staff
    member's set in the result contains the set it had before: sets only
    grow. *)
Theorem update_project_history_idempotent (history : HistoryMap)
    (allocation : Allocation) (updated : HistoryMap) :
  update_project_history history allocation = Ok updated →
  update_project_history updated allocation = Ok updated ∧
  ∀ ta seen, history !! ta = Some seen →
             ∃ seen', updated !! ta = Some seen' ∧ seen ⊆ seen'.
Proof.
  intros [Hkeys ->]%update_project_history_Ok. split.
  - apply update_project_history_Ok. split.
    + intros ta groups Hta. destruct (Hkeys ta groups Hta) as [?|Hsome];
        [by left|right].
      by rewrite merged_history_lookup, fmap_is_Some.
    + apply map_eq. intros ta. rewrite !merged_history_lookup.
      destruct (history !! ta); cbn [fmap option_fmap option_map]; [|done].
      f_equal. set_solver.
  - intros ta seen Hseen. exists (seen ∪ ⋃ (allocation !!! ta)).
    rewrite merged_history_lookup, Hseen. split; [done|set_solver].
Qed.

Lemma update_project_history_idempotent_witness :
  update_project_history {[X := {[s1; s2; s3]}]} {[X := [{[s1; s2]}]]}
    = Ok {[X := {[s1; s2; s3]}]} ∧
  ∀ ta seen, ({[X := {[s3]}]} : HistoryMap) !! ta = Some seen →
             ∃ seen', ({[X := {[s1; s2; s3]}]} : HistoryMap) !! ta = Some seen'
                      ∧ seen ⊆ seen'.
Proof.
  apply (update_project_history_idempotent {[X := {[s3]}]}
           {[X := [{[s1; s2]}]]} {[X := {[s1; s2; s3]}]}).
  vm_compute; reflexivity.
Defined.

(** * Further properties of the allocator *)

(** ** The shapes a turn of the placement loop can take *)

Lemma assign_pair_cases (tas : list string) (history : HistoryMap)
    (blocks : BlockMap) (cap : nat) (ta2groups ta2groups' : Allocation)
    (out out' : list event) (pair : Group) :
  assign_pair tas history blocks cap (ta2groups, out) pair = Ok (ta2groups', out') →
  ∃ options,
    surviving tas history blocks ta2groups pair = Ok options ∧
    ((options = [] ∧ ta2groups' = ta2groups ∧ out' = out ++ [NoOptions pair]) ∨
     (∃ ta, ta ∈ options ∧ ta2groups' = append_pair ta pair ta2groups ∧
        ((first_below ta2groups cap options = Some ta ∧ out' = out) ∨
         (first_below ta2groups cap options = None ∧
          out' = out ++ [OverCapacity pair])))).
Proof.
  intros H. unfold assign_pair in H.
  destruct (surviving tas history blocks ta2groups pair) as [options|]
    eqn:Hsurv; [simpl in H|done].
  exists options. split; [done|].
  case_decide as Hlen.
  { injection H as <- <-. left. by destruct options. }
  assert (options ≠ []) as Hne by (by intros ->). right.
  destruct (first_below ta2groups cap options) as [ta|] eqn:Hfirst.
  - injection H as <- <-. exists ta. split; [|by auto].
    apply first_below_Some in Hfirst as (before & after & -> & _).
    apply elem_of_app. right. by left.
  - destruct (smallest_option_spec ta2groups options Hne) as (ta & Hsm & Hin & _).
    rewrite Hsm in H. simpl in H. injection H as <- <-.
    exists ta. by auto.
Qed.

(** ** Keys *)

(** X1.  The allocation the allocator returns has exactly the staff
    members as keys: one list, possibly empty, per staff member. *)
Theorem assign_project_keys (tas : list string) (student_pairs : list Group)
    (history : HistoryMap) (blocks : BlockMap) (ta2groups : Allocation)
    (out : list event) :
  assign_project tas student_pairs history blocks = Ok (ta2groups, out) →
  ∀ ta, is_Some (ta2groups !! ta) ↔ ta ∈ tas.
Proof.
  intros (cap & _ & Hloop & _)%assign_project_Ok ta.
  apply assign_loop_dom in Hloop; [|apply empty_allocation_dom].
  by rewrite <- elem_of_dom, Hloop, elem_of_list_to_set.
Qed.

Lemma assign_project_keys_witness :
  assign_project [X] [{[s1]}; {[s2]}] {[X := {[s1]}]} {[X := ∅]}
    = Ok ({[X := [{[s2]}]]}, [NoOptions {[s1]}]) ∧
  ∀ ta, is_Some (({[X := [{[s2]}]]} : Allocation) !! ta) ↔ ta ∈ [X].
Proof.
  assert (assign_project [X] [{[s1]}; {[s2]}] {[X := {[s1]}]} {[X := ∅]}
    = Ok ({[X := [{[s2]}]]}, [NoOptions {[s1]}])) as Hrun
    by (vm_compute; reflexivity).
  split; [exact Hrun|].
  exact (assign_project_keys _ _ _ _ _ _ Hrun).
Defined.

(** ** Coverage *)

Lemma placed_append_other (tas : list string) (ta : string) (pair : Group)
    (ta2groups : Allocation) :
  ta ∉ tas → placed tas (append_pair ta pair ta2groups) = placed tas ta2groups.
Proof.
  unfold placed, append_pair. intros Hta. f_equal.
  apply list_fmap_ext. intros i t Ht.
  rewrite lookup_total_insert_ne; [done|].
  intros ->. apply Hta. by eapply list_elem_of_lookup_2.
Qed.

Lemma placed_append (tas : list string) (ta : string) (pair : Group)
    (ta2groups : Allocation) :
  NoDup tas → ta ∈ tas →
  placed tas (append_pair ta pair ta2groups) ≡ₚ pair :: placed tas ta2groups.
Proof.
  induction 1 as [|t tas Ht Hnd IH]; [by intros ?%elem_of_nil|].
  intros Hin. change (placed (t :: tas) ?a) with (a !!! t ++ placed tas a).
  destruct (decide (t = ta)) as [->|Hne].
  - rewrite placed_append_other by done. unfold append_pair at 1.
    rewrite lookup_total_insert_eq. rewrite <- (assoc_L (++)). cbn [app].
    by rewrite <- Permutation_middle.
  - apply elem_of_cons in Hin as [->|Hin]; [done|].
    rewrite IH by done. unfold append_pair.
    rewrite lookup_total_insert_ne by done.
    by rewrite <- Permutation_middle.
Qed.

Lemma reported_app (out out' : list event) :
  reported (out ++ out') = reported out ++ reported out'.
Proof. apply omap_app. Qed.

Lemma assign_loop_coverage (tas : list string) (history : HistoryMap)
    (blocks : BlockMap) (cap : nat) (pairs : list Group)
    (ta2groups ta2groups' : Allocation) (out out' : list event) :
  NoDup tas →
  assign_loop tas history blocks cap (ta2groups, out) pairs = Ok (ta2groups', out') →
  placed tas ta2groups' ++ reported out'
    ≡ₚ (placed tas ta2groups ++ reported out) ++ pairs.
Proof.
  intros Hnd. revert ta2groups out.
  induction pairs as [|pr pairs IH]; cbn [assign_loop]; intros ta2groups out H.
  - injection H as <- <-. by rewrite app_nil_r.
  - bind_inv H. destruct a as [a out1]. rewrite (IH _ _ H).
    apply assign_pair_cases in H_l
      as (options & Hsurv & [(-> & -> & ->)|(ta & Hta & -> & Hout)]).
    + rewrite reported_app. cbn [reported omap].
      rewrite <- !(assoc_L (++)). done.
    + apply (surviving_subseteq _ _ _ _ _ _ _ Hsurv) in Hta.
      rewrite (placed_append _ _ _ _ Hnd Hta).
      assert (reported out1 = reported out) as ->.
      { destruct Hout as [[_ ->]|[_ ->]]; [done|].
        rewrite reported_app. cbn [reported omap]. by rewrite app_nil_r. }
      cbn [app]. rewrite <- !(assoc_L (++)).
      rewrite <- (Permutation_middle _ pairs). by rewrite Permutation_middle.
Qed.

Lemma placed_empty_allocation (tas tas' : list string) :
  placed tas (empty_allocation tas') = [].
Proof.
  unfold placed. induction tas as [|t tas IH]; cbn [fmap list_fmap concat];
    [done|].
  rewrite IH, app_nil_r, lookup_total_alt.
  destruct (empty_allocation tas' !! t) as [l|] eqn:Hl; [|done].
  by apply empty_allocation_lookup in Hl as [_ ->].
Qed.

(** X2.  Whenever the allocator returns, the groups held by the staff
    members together with the groups reported as having conflicts with all
    options are, counted with multiplicity, exactly the input groups: no
    group is lost silently, none is placed twice. *)
Theorem assign_project_coverage (tas : list string) (student_pairs : list Group)
    (history : HistoryMap) (blocks : BlockMap) (ta2groups : Allocation)
    (out : list event) :
  NoDup tas →
  assign_project tas student_pairs history blocks = Ok (ta2groups, out) →
  placed tas ta2groups ++ reported out ≡ₚ student_pairs.
Proof.
  intros Hnd (cap & _ & Hloop & _)%assign_project_Ok.
  apply (assign_loop_coverage _ _ _ _ _ _ _ _ _ Hnd) in Hloop.
  by rewrite placed_empty_allocation in Hloop.
Qed.

Lemma assign_project_coverage_witness :
  placed [X] {[X := [{[s2]}]]} ++ reported [NoOptions {[s1]}]
    ≡ₚ [{[s1]}; {[s2]}].
Proof.
  apply (assign_project_coverage [X] [{[s1]}; {[s2]}] {[X := {[s1]}]}
           {[X := ∅]} {[X := [{[s2]}]]} [NoOptions {[s1]}]).
  - apply NoDup_singleton.
  - vm_compute; reflexivity.
Defined.

(** ** Two or more staff members *)

Lemma assign_loop_never_reports (tas : list string) (history : HistoryMap)
    (blocks : BlockMap) (cap : nat) (pairs : list Group)
    (ta2groups ta2groups' : Allocation) (out out' : list event) :
  NoDup tas → 2 ≤ length tas →
  assign_loop tas history blocks cap (ta2groups, out) pairs = Ok (ta2groups', out') →
  reported out' = reported out.
Proof.
  intros Hnd Hlen. revert ta2groups out.
  induction pairs as [|pr pairs IH]; cbn [assign_loop]; intros ta2groups out H.
  - by injection H as <- <-.
  - bind_inv H. destruct a as [a out1]. rewrite (IH _ _ H).
    apply assign_pair_cases in H_l
      as (options & Hsurv & [(-> & _)|(ta & _ & _ & Hout)]).
    + by apply surviving_nonempty in Hsurv.
    + destruct Hout as [[_ ->]|[_ ->]]; [done|].
      rewrite reported_app. cbn [reported omap]. by rewrite app_nil_r.
Qed.

(** X3.  With two or more staff members the allocator never reports a
    group as having conflicts with all options, whatever the blocks and the
    history are: if it returns, every input group has been placed with some
    staff member. *)
Theorem two_staff_never_unplaceable (tas : list string)
    (student_pairs : list Group) (history : HistoryMap) (blocks : BlockMap)
    (ta2groups : Allocation) (out : list event) :
  NoDup tas → 2 ≤ length tas →
  assign_project tas student_pairs history blocks = Ok (ta2groups, out) →
  (∀ pair, NoOptions pair ∉ out) ∧ placed tas ta2groups ≡ₚ student_pairs.
Proof.
  intros Hnd Hlen (cap & _ & Hloop & _)%assign_project_Ok.
  pose proof (assign_loop_coverage _ _ _ _ _ _ _ _ _ Hnd Hloop) as Hcov.
  rewrite placed_empty_allocation in Hcov. simpl in Hcov.
  apply assign_loop_never_reports in Hloop; [|done..].
  cbn [reported omap] in Hloop. rewrite Hloop, app_nil_r in Hcov.
  split; [|done]. intros pair Hin.
  assert (pair ∈ reported out) as Hrep
    by (apply list_elem_of_omap; by exists (NoOptions pair)).
  rewrite Hloop in Hrep. by apply elem_of_nil in Hrep.
Qed.

Lemma two_staff_never_unplaceable_witness :
  (∀ pair, NoOptions pair ∉ ([] : list event)) ∧
  placed [X; Y] {[X := []; Y := [{[s1]}]]} ≡ₚ [{[s1]}].
Proof.
  apply (two_staff_never_unplaceable [X; Y] [{[s1]}]
           {[X := {[s1]}; Y := {[s1]}]} {[X := ∅; Y := ∅]}
           {[X := []; Y := [{[s1]}]]} []).
  - apply NoDup_cons. split; [|apply NoDup_singleton].
    intros Hin%list_elem_of_singleton. discriminate Hin.
  - simpl. lia.
  - vm_compute; reflexivity.
Defined.

(** ** Which exceptions can escape *)

Lemma check_student_Ok (history : HistoryMap) (blocks : BlockMap)
    (ta student : string) (options : list string) :
  is_Some (history !! ta) → is_Some (blocks !! ta) →
  ∃ options', check_student history blocks ta options student = Ok options'.
Proof.
  intros [h Hh] [b Hb]. unfold check_student, subscript. rewrite Hh, Hb.
  simp_bind. repeat (case_decide; simp_bind); by eexists.
Qed.

Lemma check_students_Ok (history : HistoryMap) (blocks : BlockMap)
    (ta : string) (students : list string) (options : list string) :
  is_Some (history !! ta) → is_Some (blocks !! ta) →
  ∃ options', check_students history blocks ta students options = Ok options'.
Proof.
  intros Hh Hb. revert options.
  induction students as [|student rest IH]; intros options;
    cbn [check_students]; [by eexists|].
  destruct (check_student_Ok history blocks ta student options Hh Hb)
    as (o & ->). simp_bind. apply IH.
Qed.

Lemma filter_options_Ok (fuel : nat) (history : HistoryMap)
    (blocks : BlockMap) (pair : Group) (i : nat) (options : list string) :
  (∀ t, t ∈ options → is_Some (history !! t) ∧ is_Some (blocks !! t)) →
  ∃ survivors, filter_options fuel history blocks pair i options = Ok survivors.
Proof.
  revert i options. induction fuel as [|fuel IH]; intros i options Hkeys;
    cbn [filter_options]; [by eexists|].
  destruct (options !! i) as [ta|] eqn:Hta; [|by eexists].
  destruct (Hkeys ta) as [Hh Hb]; [by eapply list_elem_of_lookup_2|].
  destruct (check_students_Ok history blocks ta (elements pair) options Hh Hb)
    as (o & Ho). rewrite Ho. simp_bind. apply IH.
  intros t Ht. apply Hkeys. eapply elem_of_sublist; [done|].
  by eapply check_students_sublist.
Qed.

Lemma surviving_Ok (tas : list string) (history : HistoryMap)
    (blocks : BlockMap) (ta2groups : Allocation) (pair : Group) :
  (∀ t, t ∈ tas → is_Some (history !! t) ∧ is_Some (blocks !! t)) →
  ∃ options, surviving tas history blocks ta2groups pair = Ok options.
Proof.
  intros Hkeys. apply filter_options_Ok. intros t Ht. apply Hkeys.
  by rewrite <- (sorted_perm (load ta2groups)).
Qed.

Lemma assign_pair_Ok (tas : list string) (history : HistoryMap)
    (blocks : BlockMap) (cap : nat) (st : Allocation * list event)
    (pair : Group) :
  (∀ t, t ∈ tas → is_Some (history !! t) ∧ is_Some (blocks !! t)) →
  ∃ st', assign_pair tas history blocks cap st pair = Ok st'.
Proof.
  intros Hkeys. destruct st as [ta2groups out].
  destruct (surviving_Ok tas history blocks ta2groups pair Hkeys)
    as (options & Hsurv).
  destruct options as [|t options].
  { eexists. by apply assign_pair_unplaceable. }
  destruct (first_below ta2groups cap (t :: options)) as [ta|] eqn:Hfirst.
  - eexists. by eapply assign_pair_below.
  - destruct (smallest_option_spec ta2groups (t :: options)) as (ta & ? & _);
      [done|].
    eexists. by eapply assign_pair_over.
Qed.

Lemma assign_loop_Ok (tas : list string) (history : HistoryMap)
    (blocks : BlockMap) (cap : nat) (st : Allocation * list event)
    (pairs : list Group) :
  (∀ t, t ∈ tas → is_Some (history !! t) ∧ is_Some (blocks !! t)) →
  ∃ st', assign_loop tas history blocks cap st pairs = Ok st'.
Proof.
  intros Hkeys. revert st.
  induction pairs as [|pr pairs IH]; intros st; cbn [assign_loop];
    [by eexists|].
  destruct (assign_pair_Ok tas history blocks cap st pr Hkeys) as (st1 & ->).
  simp_bind. apply IH.
Qed.

(** X4.  When the staff set is not empty and every staff member has an
    entry in both the history and the block dictionary, the only exception
    the allocator can raise is the [AssertionError] of its closing check:
    no [KeyError], no [ValueError] from [min], no [ZeroDivisionError]. *)
Theorem assign_project_only_assertion (tas : list string)
    (student_pairs : list Group) (history : HistoryMap) (blocks : BlockMap)
    (e : exn) :
  tas ≠ [] →
  (∀ ta, ta ∈ tas → is_Some (history !! ta) ∧ is_Some (blocks !! ta)) →
  assign_project tas student_pairs history blocks = Raise e →
  e = AssertionError.
Proof.
  intros Hne Hkeys. unfold assign_project, ceil_div.
  rewrite decide_False by (by destruct tas). simp_bind.
  destruct (assign_loop_Ok tas history blocks
              (ceiling (length student_pairs) (length tas))
              (empty_allocation tas, []) student_pairs Hkeys) as (st & ->).
  simp_bind. destruct (project_conflicts st.1 blocks); [|done].
  by intros [= <-].
Qed.

Lemma assign_project_only_assertion_witness :
  AssertionError = AssertionError.
Proof.
  apply (assign_project_only_assertion [X; Y] [{[s1]}] {[X := ∅; Y := ∅]}
           {[X := {[s1]}; Y := {[s1]}]} AssertionError).
  - discriminate.
  - intros ta [->|[->|[]%elem_of_nil]%elem_of_cons]%elem_of_cons;
      split; vm_compute; by eexists.
  - vm_compute; reflexivity.
Defined.

(** ** Which candidates survive the filter *)

Lemma subscript_Ok {V : Type} `{!Inhabited V} (d : gmap string V)
    (k : string) (v : V) :
  subscript d k = Ok v → d !!! k = v.
Proof.
  unfold subscript. rewrite lookup_total_alt.
  destruct (d !! k); [by intros [= ->]|done].
Qed.

Lemma remove_first_other (t ta : string) (options : list string) :
  t ≠ ta → ta ∈ options → ta ∈ remove_first t options.
Proof.
  intros Hne. induction options as [|x rest IH]; cbn [remove_first]; [done|].
  intros Hin. case_decide as Hx.
  - subst x. apply elem_of_cons in Hin as [->|?]; done.
  - apply elem_of_cons in Hin as [->|?]; [by left|right; auto].
Qed.

Lemma discard_other (t ta : string) (options : list string) :
  t ≠ ta → ta ∈ options → ta ∈ discard t options.
Proof.
  intros Hne Hin. unfold discard. case_decide; [|done].
  by apply remove_first_other.
Qed.

Lemma check_students_other (history : HistoryMap) (blocks : BlockMap)
    (t ta : string) (students : list string) (options options' : list string) :
  t ≠ ta → ta ∈ options →
  check_students history blocks t students options = Ok options' →
  ta ∈ options'.
Proof.
  intros Hne. revert options.
  induction students as [|student rest IH]; cbn [check_students];
    intros options Hin H.
  - by injection H as <-.
  - bind_inv H. eapply IH; [|done].
    apply check_student_cases in H_l as [->| ->]; [done|].
    by apply discard_other.
Qed.

Lemma check_students_compatible (history : HistoryMap) (blocks : BlockMap)
    (ta : string) (students : list string) (options options' : list string) :
  (∀ student, student ∈ students →
     (student ∉ history !!! ta) ∧ (student ∉ blocks !!! ta)) →
  check_students history blocks ta students options = Ok options' →
  options' = options.
Proof.
  revert options. induction students as [|student rest IH];
    cbn [check_students]; intros options Hok H.
  - by injection H as <-.
  - bind_inv H. destruct (Hok student) as [Hh Hb]; [by left|].
    unfold check_student in H_l. bind_inv H_l.
    apply subscript_Ok in H_l_l. subst a0.
    rewrite decide_False in H_l by done. bind_inv H_l.
    apply subscript_Ok in H_l_l. subst a0.
    rewrite decide_False in H_l by done. injection H_l as <-.
    apply IH; [|done]. intros s Hs. apply Hok. by right.
Qed.

Lemma filter_options_keeps (fuel : nat) (history : HistoryMap)
    (blocks : BlockMap) (pair : Group) (i : nat)
    (options survivors : list string) (ta : string) :
  compatible history blocks ta pair → ta ∈ options →
  filter_options fuel history blocks pair i options = Ok survivors →
  ta ∈ survivors.
Proof.
  intros Hok. revert i options.
  induction fuel as [|fuel IH]; cbn [filter_options]; intros i options Hin H.
  - by injection H as <-.
  - destruct (options !! i) as [t|]; [|by injection H as <-].
    bind_inv H. eapply IH; [|done].
    destruct (decide (t = ta)) as [->|Hne].
    + apply check_students_compatible in H_l as ->; [done|].
      intros student Hs%elem_of_elements. by apply Hok.
    + by eapply check_students_other.
Qed.

(** X5.  A staff member who has none of the group's students in its history
    or block set is never filtered out: whenever the filtering returns, every
    such staff member is among the surviving candidates. *)
Theorem compatible_staff_survives (tas : list string) (history : HistoryMap)
    (blocks : BlockMap) (ta2groups : Allocation) (pair : Group)
    (options : list string) (ta : string) :
  ta ∈ tas → compatible history blocks ta pair →
  surviving tas history blocks ta2groups pair = Ok options →
  ta ∈ options.
Proof.
  intros Hin Hok. apply filter_options_keeps; [done|].
  by rewrite (sorted_perm (load ta2groups)).
Qed.

Lemma compatible_staff_survives_witness : Y ∈ [Y].
Proof.
  apply (compatible_staff_survives [X; Y] {[X := {[s1]}; Y := ∅]}
           {[X := ∅; Y := ∅]} (empty_allocation [X; Y]) {[s1]} [Y] Y).
  - right. by left.
  - intros student Hs. split; vm_compute; intros H; discriminate H.
  - vm_compute; reflexivity.
Defined.

(** ** A single staff member *)

Lemma discard_gone (ta : string) (options : list string) :
  NoDup options → ta ∉ discard ta options.
Proof.
  intros Hnd. unfold discard. case_decide; [by apply remove_first_NoDup|done].
Qed.

(** If the staff member under examination is still a candidate after the
    inner loop, none of the students was in its history or block set. *)
Lemma check_students_kept (history : HistoryMap) (blocks : BlockMap)
    (ta : string) (students : list string) (options options' : list string) :
  NoDup options →
  check_students history blocks ta students options = Ok options' →
  ta ∈ options' →
  ∀ student, student ∈ students →
    (student ∉ history !!! ta) ∧ (student ∉ blocks !!! ta).
Proof.
  revert options. induction students as [|student rest IH];
    cbn [check_students]; intros options Hnd H Hin s Hs.
  { by apply elem_of_nil in Hs. }
  bind_inv H.
  assert (ta ∈ a) as Ha
    by (eapply elem_of_sublist; [done|by eapply check_students_sublist]).
  assert (NoDup a ∧ a = options ∧
          (student ∉ history !!! ta) ∧ (student ∉ blocks !!! ta))
    as (Hnd' & -> & Hstudent).
  { unfold check_student in H_l. bind_inv H_l.
    apply subscript_Ok in H_l_l. subst a0. case_decide as Hh.
    { injection H_l as <-. by apply discard_gone in Ha. }
    bind_inv H_l. apply subscript_Ok in H_l_l. subst a0. case_decide as Hb.
    { injection H_l as <-. by apply discard_gone in Ha. }
    by injection H_l as <-. }
  apply elem_of_cons in Hs as [->|Hs]; [done|]. by eapply IH.
Qed.

(** X6.  With a single staff member the filter is exact: a group in the
    returned allocation has no student in that staff member's history or
    block set. *)
Theorem single_staff_no_repeat (t0 : string) (student_pairs : list Group)
    (history : HistoryMap) (blocks : BlockMap) (ta2groups : Allocation)
    (out : list event) (group : list Group) (pair : Group) :
  assign_project [t0] student_pairs history blocks = Ok (ta2groups, out) →
  ta2groups !! t0 = Some group → pair ∈ group →
  compatible history blocks t0 pair.
Proof.
  intros (cap & _ & Hloop & _)%assign_project_Ok Hgroup Hpair.
  assert (∃ a options, surviving [t0] history blocks a pair = Ok options
                       ∧ options ≠ []) as (a & options & Hsurv & Hne).
  { eapply assign_loop_placed; [|exact Hloop|exact Hgroup|exact Hpair].
    intros t l g [_ ->]%empty_allocation_lookup Hg.
    by apply elem_of_nil in Hg. }
  change (surviving [t0] history blocks a pair)
    with (o ← check_students history blocks t0 (elements pair) [t0];
          Ok o) in Hsurv.
  bind_inv Hsurv. injection Hsurv as ->.
  intros student Hs%elem_of_elements.
  eapply check_students_kept; [apply NoDup_singleton|exact Hsurv_l| |exact Hs].
  apply check_students_sublist in Hsurv_l.
  destruct options as [|t options]; [done|].
  apply sublist_cons_l in Hsurv_l as (k1 & k2 & Hk & _).
  destruct k1 as [|? [|? ?]]; simplify_eq/=. by left.
Qed.

Lemma single_staff_no_repeat_witness : compatible {[X := {[s1]}]} {[X := ∅]} X {[s2]}.
Proof.
  apply (single_staff_no_repeat X [{[s1]}; {[s2]}] {[X := {[s1]}]} {[X := ∅]}
           {[X := [{[s2]}]]} [NoOptions {[s1]}] [{[s2]}] {[s2]}).
  - vm_compute; reflexivity.
  - vm_compute; reflexivity.
  - by left.
Defined.

(** ** Balance *)

Lemma filter_options_unchanged (fuel : nat) (history : HistoryMap)
    (blocks : BlockMap) (pair : Group) (i : nat)
    (options survivors : list string) :
  (∀ t, t ∈ options → compatible history blocks t pair) →
  filter_options fuel history blocks pair i options = Ok survivors →
  survivors = options.
Proof.
  intros Hok. revert i.
  induction fuel as [|fuel IH]; cbn [filter_options]; intros i H.
  - by injection H as <-.
  - destruct (options !! i) as [t|] eqn:Ht; [|by injection H as <-].
    bind_inv H. apply check_students_compatible in H_l as ->; [by eapply IH|].
    intros student Hs%elem_of_elements.
    by apply (Hok t); [eapply list_elem_of_lookup_2|].
Qed.

Lemma placed_length_full (tas : list string) (ta2groups : Allocation)
    (cap : nat) :
  (∀ t, t ∈ tas → cap ≤ load ta2groups t) →
  cap * length tas ≤ length (placed tas ta2groups).
Proof.
  unfold placed. induction tas as [|t tas IH]; intros Hfull;
    cbn [fmap list_fmap concat length]; [lia|].
  rewrite length_app.
  assert (cap ≤ load ta2groups t) as Ht by (apply Hfull; by left).
  unfold load in Ht.
  assert (cap * length tas
          ≤ length (concat ((λ ta, ta2groups !!! ta) <$> tas))) as Htas.
  { apply IH. intros t' Ht'. apply Hfull. by right. }
  lia.
Qed.

Lemma elem_of_placed (tas : list string) (ta2groups : Allocation)
    (pair : Group) :
  pair ∈ placed tas ta2groups ↔ ∃ ta, ta ∈ tas ∧ pair ∈ ta2groups !!! ta.
Proof.
  unfold placed. induction tas as [|t tas IH]; cbn [fmap list_fmap concat].
  - split; [by intros ?%elem_of_nil|]. by intros (? & ?%elem_of_nil & _).
  - rewrite elem_of_app, IH. split.
    + intros [?|(ta & ? & ?)]; [exists t; split; [by left|done]|].
      exists ta. split; [by right|done].
    + intros (ta & [->|?]%elem_of_cons & ?); [by left|right; by exists ta].
Qed.

Lemma load_append_pair (ta t : string) (pair : Group) (ta2groups : Allocation) :
  load (append_pair ta pair ta2groups) t
  = if decide (ta = t) then S (load ta2groups t) else load ta2groups t.
Proof.
  unfold load, append_pair. case_decide as Heq.
  - subst. rewrite lookup_total_insert_eq, length_app. simpl. lia.
  - by rewrite lookup_total_insert_ne.
Qed.

Lemma assign_loop_balanced (tas : list string) (history : HistoryMap)
    (blocks : BlockMap) (cap : nat) (pairs : list Group)
    (ta2groups : Allocation) :
  NoDup tas →
  (∀ t, t ∈ tas → is_Some (history !! t) ∧ is_Some (blocks !! t)) →
  (∀ t pair, t ∈ tas → pair ∈ pairs → compatible history blocks t pair) →
  (∀ t, load ta2groups t ≤ cap) →
  length (placed tas ta2groups) + length pairs ≤ cap * length tas →
  ∃ ta2groups',
    assign_loop tas history blocks cap (ta2groups, []) pairs
      = Ok (ta2groups', []) ∧
    ∀ t, load ta2groups' t ≤ cap.
Proof.
  intros Hnd Hkeys. revert ta2groups.
  induction pairs as [|pr pairs IH]; cbn [assign_loop];
    intros ta2groups Hok Hload Hroom; [by exists ta2groups|].
  destruct (surviving_Ok tas history blocks ta2groups pr Hkeys)
    as (options & Hsurv).
  assert (options = sorted (load ta2groups) tas) as Hoptions.
  { eapply filter_options_unchanged; [|exact Hsurv].
    intros t Ht. apply Hok; [|by left].
    by rewrite <- (sorted_perm (load ta2groups)). }
  assert (options ≠ []) as Hne.
  { intros ->. symmetry in Hoptions.
    pose proof (sorted_perm (load ta2groups) tas) as Hperm.
    rewrite Hoptions in Hperm. apply Permutation_nil_l in Hperm. subst tas.
    simpl in Hroom. lia. }
  destruct (first_below ta2groups cap options) as [ta|] eqn:Hfirst.
  - rewrite (assign_pair_below _ _ _ _ _ _ _ _ _ Hsurv Hne Hfirst). simp_bind.
    apply first_below_Some in Hfirst as (before & after & Heq & Hlt & _).
    assert (ta ∈ tas) as Hta.
    { eapply surviving_subseteq; [done|]. rewrite Heq.
      apply elem_of_app. right. by left. }
    apply IH.
    + intros t pair Ht Hpair. apply Hok; [done|by right].
    + intros t. rewrite load_append_pair. case_decide; [subst; lia|done].
    + rewrite (Permutation_length (placed_append _ _ _ _ Hnd Hta)).
      simpl in *. lia.
  - exfalso. rewrite first_below_None in Hfirst.
    pose proof (placed_length_full tas ta2groups cap) as Hfull.
    simpl in Hroom. cut (cap * length tas ≤ length (placed tas ta2groups)); [lia|].
    apply Hfull. intros t Ht. apply Hfirst.
    by rewrite Hoptions, (sorted_perm (load ta2groups)).
Qed.

(** X7.  When every staff member has an entry in both dictionaries and no
    student of any group is in any staff member's history or block set, the
    allocator returns, prints no message (no group is without options, none
    is placed over capacity), places every group, and no staff member ends
    with more groups than the ceiling of groups over staff. *)
Theorem assign_project_balanced (tas : list string)
    (student_pairs : list Group) (history : HistoryMap) (blocks : BlockMap) :
  NoDup tas → tas ≠ [] →
  (∀ ta, ta ∈ tas → is_Some (history !! ta) ∧ is_Some (blocks !! ta)) →
  (∀ ta pair, ta ∈ tas → pair ∈ student_pairs →
     compatible history blocks ta pair) →
  ∃ ta2groups,
    assign_project tas student_pairs history blocks = Ok (ta2groups, []) ∧
    placed tas ta2groups ≡ₚ student_pairs ∧
    ∀ ta, load ta2groups ta ≤ ceiling (length student_pairs) (length tas).
Proof.
  intros Hnd Hne Hkeys Hok.
  assert (length tas ≠ 0) as Hlen by (by destruct tas).
  destruct (assign_loop_balanced tas history blocks
              (ceiling (length student_pairs) (length tas)) student_pairs
              (empty_allocation tas) Hnd Hkeys Hok)
    as (ta2groups & Hloop & Hload).
  { intros t. unfold load. rewrite lookup_total_alt.
    destruct (empty_allocation tas !! t) as [l|] eqn:Hl; simpl; [|lia].
    apply empty_allocation_lookup in Hl as [_ ->]. simpl. lia. }
  { rewrite placed_empty_allocation. simpl.
    by apply ceiling_spec. }
  pose proof (assign_loop_coverage _ _ _ _ _ _ _ _ _ Hnd Hloop) as Hcov.
  rewrite placed_empty_allocation in Hcov. simpl in Hcov.
  rewrite app_nil_r in Hcov.
  exists ta2groups. split; [|by split].
  apply assign_project_Ok. eexists. split; [|split; [exact Hloop|]].
  { unfold ceil_div. by rewrite decide_False. }
  apply not_true_iff_false. intros Hc%project_conflicts_true.
  destruct Hc as (ta & group & pair & student & Hgroup & Hpair & Hs & Hb).
  simpl in Hgroup.
  assert (ta ∈ tas) as Hta.
  { apply assign_loop_dom in Hloop; [|apply empty_allocation_dom].
    rewrite <- (elem_of_list_to_set (C:=gset string)), <- Hloop.
    apply elem_of_dom. by eexists. }
  assert (pair ∈ student_pairs) as Hin.
  { rewrite <- Hcov. apply elem_of_placed. exists ta. split; [done|].
    by rewrite (lookup_total_correct _ _ _ Hgroup). }
  by destruct (Hok ta pair Hta Hin student Hs).
Qed.

Lemma assign_project_balanced_witness :
  ∃ ta2groups,
    assign_project [X; Y] [{[s1; s2]}; {[s3]}; {[s4; s5]}]
        {[X := ∅; Y := ∅]} {[X := ∅; Y := ∅]} = Ok (ta2groups, []) ∧
    placed [X; Y] ta2groups ≡ₚ [{[s1; s2]}; {[s3]}; {[s4; s5]}] ∧
    ∀ ta, load ta2groups ta ≤ ceiling 3 2.
Proof.
  apply (assign_project_balanced [X; Y] [{[s1; s2]}; {[s3]}; {[s4; s5]}]
           {[X := ∅; Y := ∅]} {[X := ∅; Y := ∅]}).
  - apply NoDup_cons. split; [|apply NoDup_singleton].
    intros Hin%list_elem_of_singleton. discriminate Hin.
  - discriminate.
  - intros ta [->|[->|[]%elem_of_nil]%elem_of_cons]%elem_of_cons;
      split; vm_compute; by eexists.
  - intros ta pair [->|[->|[]%elem_of_nil]%elem_of_cons]%elem_of_cons _
      student _; split; vm_compute; intros H; discriminate H.
Defined.

(** * Further properties of the history updater *)

(** X8.  The only exception the updater can raise is [KeyError], and it
    raises it exactly when some staff member who is assigned at least one
    student has no entry in the history; a staff member without students
    needs no entry. *)
Theorem update_project_history_KeyError (curr_history : HistoryMap)
    (curr_groups : Allocation) :
  (∀ e, update_project_history curr_history curr_groups = Raise e →
        e = KeyError) ∧
  ((∃ e, update_project_history curr_history curr_groups = Raise e) ↔
   ∃ ta groups pair student,
     curr_groups !! ta = Some groups ∧ pair ∈ groups ∧ student ∈ pair ∧
     curr_history !! ta = None).
Proof.
  unfold update_project_history. rewrite add_items_spec.
  case_decide as Hall.
  - split; [done|]. split; [by intros [? ?]|].
    intros (ta & groups & pair & student & Hta & Hpair & Hs & Hnone).
    rewrite Forall_forall in Hall.
    destruct (Hall (ta, groups)) as [Hempty|[? Hsome]]; simpl in *.
    + by apply elem_of_map_to_list.
    + assert (student ∈ ⋃ groups) as Hin
        by (apply elem_of_union_list; by exists pair).
      rewrite Hempty in Hin. set_solver.
    + congruence.
  - split; [by intros e [= <-]|]. split; [intros _|by eexists].
    apply not_Forall_Exists in Hall; [|apply _].
    apply Exists_exists in Hall as ([ta groups] & Hin & Hbad).
    apply elem_of_map_to_list in Hin. simpl in Hbad.
    assert (⋃ groups ≠ ∅) as Hne by tauto.
    apply set_choose_L in Hne as (student & Hs).
    apply elem_of_union_list in Hs as (pair & Hpair & Hs).
    exists ta, groups, pair, student. repeat split; try done.
    apply eq_None_not_Some. tauto.
Qed.

(** X9.  After an allocation is returned for staff members who all have a
    history entry, the updater run on that history and that allocation
    returns; the new history has the same keys, and it records every
    assigned student with the staff member who received the group. *)
Theorem update_after_assign (tas : list string) (student_pairs : list Group)
    (history : HistoryMap) (blocks : BlockMap) (ta2groups : Allocation)
    (out : list event) :
  (∀ ta, ta ∈ tas → is_Some (history !! ta)) →
  assign_project tas student_pairs history blocks = Ok (ta2groups, out) →
  ∃ updated,
    update_project_history history ta2groups = Ok updated ∧
    dom updated = dom history ∧
    ∀ ta group pair student,
      ta2groups !! ta = Some group → pair ∈ group → student ∈ pair →
      ∃ seen, updated !! ta = Some seen ∧ student ∈ seen.
Proof.
  intros Hkeys (cap & _ & Hloop & _)%assign_project_Ok.
  apply assign_loop_dom in Hloop; [|apply empty_allocation_dom].
  assert (∀ ta group, ta2groups !! ta = Some group → is_Some (history !! ta))
    as Hentry.
  { intros ta group Hta. apply Hkeys.
    rewrite <- (elem_of_list_to_set (C:=gset string)), <- Hloop.
    apply elem_of_dom. by eexists. }
  exists (merged_history history ta2groups). split; [|split].
  - apply update_project_history_Ok. split; [|done].
    intros ta groups Hta. right. by eapply Hentry.
  - apply set_eq. intros ta.
    by rewrite !elem_of_dom, merged_history_lookup, fmap_is_Some.
  - intros ta group pair student Hta Hpair Hs.
    destruct (Hentry ta group Hta) as [seen Hseen].
    exists (seen ∪ ⋃ group). rewrite merged_history_lookup, Hseen.
    rewrite (lookup_total_correct _ _ _ Hta). split; [done|].
    apply elem_of_union. right. apply elem_of_union_list. by exists pair.
Qed.

Lemma update_after_assign_witness :
  ∃ updated,
    update_project_history {[X := {[s1]}]} {[X := [{[s2]}]]} = Ok updated ∧
    dom updated = dom ({[X := {[s1]}]} : HistoryMap) ∧
    ∀ ta group pair student,
      ({[X := [{[s2]}]]} : Allocation) !! ta = Some group →
      pair ∈ group → student ∈ pair →
      ∃ seen, updated !! ta = Some seen ∧ student ∈ seen.
Proof.
  apply (update_after_assign [X] [{[s1]}; {[s2]}] {[X := {[s1]}]} {[X := ∅]}
           {[X := [{[s2]}]]} [NoOptions {[s1]}]).
  - intros ta ->%list_elem_of_singleton. vm_compute. by eexists.
  - vm_compute; reflexivity.
Defined.

(** * The file-level functions *)

(** Reduces a bind of [outcome] whose first computation is a constructor. *)
Ltac simp_outcome := cbn [mbind outcome_bind lift index].

Lemma elem_of_flatten_set (rows : list (list string)) (x : string) :
  x ∈ flatten_set rows ↔ ∃ row, row ∈ rows ∧ x ∈ row.
Proof.
  unfold flatten_set. rewrite elem_of_list_to_set.
  induction rows as [|r rows IH]; cbn [concat].
  - split; [by intros ?%elem_of_nil|]. by intros (? & ?%elem_of_nil & _).
  - rewrite elem_of_app, IH. split.
    + intros [?|(row & ? & ?)]; [exists r; split; [by left|done]|].
      exists row. split; [by right|done].
    + intros (row & [->|?]%elem_of_cons & ?); [by left|right; by exists row].
Qed.

Lemma empty_blocks_lookup (tas : gset string) (ta : string) (seen : gset string) :
  empty_blocks tas !! ta = Some seen ↔ ta ∈ tas ∧ ta ≠ "" ∧ seen = ∅.
Proof.
  unfold empty_blocks. rewrite lookup_gset_to_gmap_Some, elem_of_filter.
  naive_solver.
Qed.

Lemma add_block_Done (blocks blocks' : BlockMap) (row : list string) :
  add_block blocks row = Done blocks' ↔
  ∃ ta student seen,
    row !! 0 = Some ta ∧ row !! 1 = Some student ∧
    blocks !! ta = Some seen ∧ blocks' = <[ta := seen ∪ {[student]}]> blocks.
Proof.
  unfold add_block, index, subscript.
  destruct (row !! 0) as [ta|]; simp_outcome; [|naive_solver].
  destruct (row !! 1) as [student|]; simp_outcome; [|naive_solver].
  destruct (blocks !! ta) as [seen|] eqn:Hta; simp_outcome; [|naive_solver].
  split.
  - intros [= <-]. by exists ta, student, seen.
  - intros (? & ? & ? & [= <-] & [= <-] & Hseen & ->).
    rewrite Hta in Hseen. by injection Hseen as ->.
Qed.

(** What the loop over the block rows has done when it ends normally. *)
Lemma add_blocks_Done (blocks blocks' : BlockMap) (rows : list (list string)) :
  add_blocks blocks rows = Done blocks' →
  dom blocks' = dom blocks ∧
  ∀ ta student,
    student ∈ blocks' !!! ta ↔
    student ∈ blocks !!! ta ∨
    ∃ row, row ∈ rows ∧ row !! 0 = Some ta ∧ row !! 1 = Some student.
Proof.
  revert blocks. induction rows as [|row rows IH]; cbn [add_blocks];
    intros blocks H.
  - injection H as <-. split; [done|]. intros ta student. split; [by left|].
    intros [?|(? & ?%elem_of_nil & _)]; done.
  - destruct (add_block blocks row) as [b1|] eqn:Hrow; simp_outcome; [|done].
    apply add_block_Done in Hrow as (ta0 & st0 & seen & H0 & H1 & Hseen & ->).
    apply IH in H as [Hdom Hsets]. split.
    { rewrite Hdom, dom_insert_L.
      assert (ta0 ∈ dom blocks) by (apply elem_of_dom; by eexists).
      set_solver. }
    intros ta student. rewrite Hsets, lookup_total_insert.
    assert (blocks !!! ta0 = seen) as Htotal
      by (by apply lookup_total_correct).
    case_decide as Heq.
    + subst ta. rewrite elem_of_union, elem_of_singleton, Htotal. split.
      * intros [[?| ->]|(r & ? & ?)]; [by left| |].
        -- right. exists row. split; [by left|done].
        -- right. exists r. split; [by right|done].
      * intros [?|(r & [->|?]%elem_of_cons & Hr0 & Hr1)]; [by left; left| |].
        -- left. right. congruence.
        -- right. by exists r.
    + split.
      * intros [?|(r & ? & ?)]; [by left|].
        right. exists r. split; [by right|done].
      * intros [?|(r & [->|?]%elem_of_cons & Hr0 & Hr1)]; [by left| |].
        -- congruence.
        -- right. by exists r.
Qed.

(** X10.  When [load_blocks] returns, the dictionary has one entry for every
    non-empty login of the staff file and no other, and the block set of a
    staff member holds exactly the second cells of the block rows whose
    first cell is that staff member; further cells of a row are ignored. *)
Theorem load_blocks_content (block_rows ta_rows : list (list string))
    (blocks : BlockMap) :
  load_blocks block_rows ta_rows = Done blocks →
  (∀ ta, is_Some (blocks !! ta) ↔
         ta ≠ "" ∧ ∃ row, row ∈ ta_rows ∧ ta ∈ row) ∧
  (∀ ta student,
     student ∈ blocks !!! ta ↔
     ∃ row, row ∈ block_rows ∧ row !! 0 = Some ta ∧ row !! 1 = Some student).
Proof.
  intros [Hdom Hsets]%add_blocks_Done. split.
  - intros ta. rewrite <- elem_of_dom, Hdom, elem_of_dom.
    rewrite <- elem_of_flatten_set. split.
    + intros [seen (? & ? & _)%empty_blocks_lookup]. done.
    + intros [? ?]. exists ∅. by apply empty_blocks_lookup.
  - intros ta student. rewrite Hsets. split; [|by right].
    intros [Hin|?]; [|done]. rewrite lookup_total_alt in Hin.
    destruct (empty_blocks (flatten_set ta_rows) !! ta) as [seen|] eqn:Hta;
      simpl in Hin; [|set_solver].
    apply empty_blocks_lookup in Hta as (_ & _ & ->). set_solver.
Qed.

Lemma load_blocks_content_witness :
  (∀ ta, is_Some (({[X := {[s1]}; Y := ∅]} : BlockMap) !! ta) ↔
         ta ≠ "" ∧ ∃ row, row ∈ [[X; ""]; [Y]] ∧ ta ∈ row) ∧
  (∀ ta student,
     student ∈ ({[X := {[s1]}; Y := ∅]} : BlockMap) !!! ta ↔
     ∃ row, row ∈ [[X; s1; s2]] ∧ row !! 0 = Some ta ∧ row !! 1 = Some student).
Proof.
  apply (load_blocks_content [[X; s1; s2]] [[X; ""]; [Y]]
           {[X := {[s1]}; Y := ∅]}).
  vm_compute; reflexivity.
Defined.

Lemma add_blocks_app (blocks : BlockMap) (rows rows' : list (list string)) :
  add_blocks blocks (rows ++ rows')
  = (blocks' ← add_blocks blocks rows; add_blocks blocks' rows').
Proof.
  revert blocks. induction rows as [|row rows IH]; intros blocks;
    cbn [app add_blocks]; [done|].
  destruct (add_block blocks row); simp_outcome; [apply IH|done].
Qed.

Lemma add_blocks_good (blocks : BlockMap) (rows : list (list string)) :
  Forall (λ row, ∃ ta student, row !! 0 = Some ta ∧ row !! 1 = Some student ∧
                               is_Some (blocks !! ta)) rows →
  ∃ blocks', add_blocks blocks rows = Done blocks' ∧ dom blocks' = dom blocks.
Proof.
  revert blocks. induction rows as [|row rows IH]; intros blocks Hgood;
    cbn [add_blocks]; [by eexists|].
  apply Forall_cons in Hgood as [(ta & student & H0 & H1 & [seen Hseen]) Hgood].
  assert (add_block blocks row = Done (<[ta := seen ∪ {[student]}]> blocks))
    as -> by (apply add_block_Done; by exists ta, student, seen).
  simp_outcome.
  assert (dom (<[ta := seen ∪ {[student]}]> blocks) = dom blocks) as Hdom.
  { rewrite dom_insert_L.
    assert (ta ∈ dom blocks) by (apply elem_of_dom; by eexists). set_solver. }
  destruct (IH (<[ta := seen ∪ {[student]}]> blocks)) as (b' & -> & Hdom').
  - eapply Forall_impl; [exact Hgood|].
    intros r (t & s & ? & ? & Hsome). exists t, s. repeat split; try done.
    by rewrite <- elem_of_dom, Hdom, elem_of_dom.
  - exists b'. split; [done|]. by rewrite Hdom'.
Qed.

(** X11.  [load_blocks] stops at the first block row that is not of the
    expected shape: with [IndexError] if that row has fewer than two cells
    (a blank line is such a row), with [KeyError] if its first cell is not a
    non-empty login of the staff file; the rows before it being well formed,
    nothing else can go wrong. *)
Theorem load_blocks_first_bad_row (good : list (list string))
    (bad : list string) (rest ta_rows : list (list string)) :
  Forall (λ row, ∃ ta student,
            row !! 0 = Some ta ∧ row !! 1 = Some student ∧
            ta ≠ "" ∧ ∃ r, r ∈ ta_rows ∧ ta ∈ r) good →
  (length bad < 2 →
   load_blocks (good ++ bad :: rest) ta_rows = Failed IndexError) ∧
  (∀ ta, 2 ≤ length bad → bad !! 0 = Some ta →
         (ta = "" ∨ ∀ r, r ∈ ta_rows → ta ∉ r) →
         load_blocks (good ++ bad :: rest) ta_rows = Failed (Exn KeyError)).
Proof.
  intros Hgood. unfold load_blocks.
  destruct (add_blocks_good (empty_blocks (flatten_set ta_rows)) good)
    as (b & Hb & Hdom).
  { eapply Forall_impl; [exact Hgood|].
    intros r (t & s & ? & ? & ? & ?). exists t, s. repeat split; try done.
    exists ∅. apply empty_blocks_lookup. by rewrite elem_of_flatten_set. }
  rewrite add_blocks_app, Hb. simp_outcome. cbn [add_blocks]. split.
  - intros Hlen. unfold add_block, index.
    destruct bad as [|c0 [|c1 ?]]; simpl in *; [done|done|lia].
  - intros ta Hlen H0 Hta. unfold add_block, index, subscript. rewrite H0.
    destruct bad as [|c0 [|c1 ?]]; simpl in Hlen; [lia|lia|].
    simp_outcome. cbn [lookup list_lookup].
    assert (b !! ta = None) as ->; [|done].
    apply not_elem_of_dom. rewrite Hdom, elem_of_dom.
    intros [seen (Hin & Hne & _)%empty_blocks_lookup].
    apply elem_of_flatten_set in Hin as (r & ? & ?). naive_solver.
Qed.

Lemma load_blocks_first_bad_row_witness :
  (length ([] : list string) < 2 →
   load_blocks ([[X; s1]] ++ [] :: [[Y; s2]]) [[X]; [Y]] = Failed IndexError) ∧
  (∀ ta, 2 ≤ length ([] : list string) → ([] : list string) !! 0 = Some ta →
         (ta = "" ∨ ∀ r, r ∈ [[X]; [Y]] → ta ∉ r) →
         load_blocks ([[X; s1]] ++ [] :: [[Y; s2]]) [[X]; [Y]]
           = Failed (Exn KeyError)).
Proof.
  apply (load_blocks_first_bad_row [[X; s1]] [] [[Y; s2]] [[X]; [Y]]).
  apply Forall_singleton. exists X, s1. repeat split; try done.
  exists [X]. split; by left.
Defined.

(** ** A whole run *)


Lemma list_to_set_order (order : gset string → list string) (S : gset string) :
  enumerates order → list_to_set (order S) = S.
Proof.
  intros Horder. apply set_eq. intros x.
  by rewrite elem_of_list_to_set, (proj2 (Horder S) x).
Qed.


Lemma run_project_unfold (env : os_env)
    (order keys_order : gset string → list string)
    (block_rows ta_rows student_rows : list (list string))
    (proj_hist : option (gmap string (list string))) :
  run_project env order keys_order block_rows ta_rows student_rows proj_hist
  = (blocks ← load_blocks block_rows ta_rows;
     st ← lift (assign_project
                  (order (load_project_data ta_rows student_rows proj_hist).1.1)
                  (load_project_data ta_rows student_rows proj_hist).1.2
                  (load_project_data ta_rows student_rows proj_hist).2 blocks);
     written ← update_project_history_to env order
                 (load_project_data ta_rows student_rows proj_hist).2 st.1;
     files ← download_project_assignments env order keys_order st.1;
     Done (RunOutput files written.2 st.2)).
Proof. done. Qed.

Lemma write_assignment_Done (env : os_env) (order : gset string → list string)
    (ta2groups : Allocation) (files files' : gmap string (list (list string)))
    (ta : string) :
  write_assignment env order ta2groups files ta = Done files' ↔
  ∃ file, assignment_file env ta = Some file ∧
          files' = <[file := order <$> (ta2groups !!! ta)]> files.
Proof.
  unfold write_assignment. destruct (assignment_file env ta) as [file|].
  - split; [intros [= <-]; by exists file|].
    by intros (? & [= <-] & ->).
  - split; [done|]. by intros (? & ? & _).
Qed.


(** A file the download leaves with some rows either had them before or
    was written for a staff member that names it. *)
Lemma write_assignments_source (env : os_env)
    (order : gset string → list string) (ta2groups : Allocation)
    (tas : list string) (files files' : gmap string (list (list string)))
    (file : string) (rows : list (list string)) :
  write_assignments env order ta2groups tas files = Done files' →
  files' !! file = Some rows →
  files !! file = Some rows ∨
  ∃ ta, ta ∈ tas ∧ assignment_file env ta = Some file ∧
        rows = order <$> (ta2groups !!! ta).
Proof.
  revert files. induction tas as [|ta tas IH]; cbn [write_assignments];
    intros files H Hrows.
  - injection H as <-. by left.
  - destruct (write_assignment env order ta2groups files ta) as [files1|]
      eqn:Hw; cbn [mbind outcome_bind] in H; [|done].
    apply write_assignment_Done in Hw as (f & Hf & ->).
    destruct (IH _ H Hrows) as [Hold|(t & Ht & ? & ?)].
    + rewrite lookup_insert in Hold. case_decide as Heq; [|by left].
      subst f. injection Hold as <-. right. exists ta. split; [by left|done].
    + right. exists t. split; [by right|done].
Qed.

Lemma write_assignments_opened (env : os_env)
    (order : gset string → list string) (ta2groups : Allocation)
    (tas : list string) (files files' : gmap string (list (list string)))
    (ta : string) :
  write_assignments env order ta2groups tas files = Done files' →
  ta ∈ tas → is_Some (assignment_file env ta).
Proof.
  revert files. induction tas as [|t tas IH]; cbn [write_assignments];
    intros files H Hin; [by apply elem_of_nil in Hin|].
  destruct (write_assignment env order ta2groups files t) as [files1|]
    eqn:Hw; cbn [mbind outcome_bind] in H; [|done].
  apply write_assignment_Done in Hw as (f & Hf & ->).
  apply elem_of_cons in Hin as [->|Hin]; [by eexists|by eapply IH].
Qed.

Lemma write_assignments_untouched (env : os_env)
    (order : gset string → list string) (ta2groups : Allocation)
    (tas : list string) (files files' : gmap string (list (list string)))
    (file : string) :
  write_assignments env order ta2groups tas files = Done files' →
  (∀ ta, ta ∈ tas → assignment_file env ta ≠ Some file) →
  files' !! file = files !! file.
Proof.
  revert files. induction tas as [|t tas IH]; cbn [write_assignments];
    intros files H Hother.
  - by injection H as <-.
  - destruct (write_assignment env order ta2groups files t) as [files1|]
      eqn:Hw; cbn [mbind outcome_bind] in H; [|done].
    apply write_assignment_Done in Hw as (f & Hf & ->).
    rewrite (IH _ H) by (intros ta Hta; apply Hother; by right).
    apply lookup_insert_ne. intros ->. by apply (Hother t); [left|].
Qed.

(** When the staff members walked name different files, the file of each
    holds its own rows at the end. *)
Lemma write_assignments_lookup (env : os_env)
    (order : gset string → list string) (ta2groups : Allocation)
    (tas : list string) (files files' : gmap string (list (list string)))
    (ta file : string) :
  write_assignments env order ta2groups tas files = Done files' →
  (∀ t t' f, t ∈ tas → t' ∈ tas → assignment_file env t = Some f →
             assignment_file env t' = Some f → t = t') →
  ta ∈ tas → assignment_file env ta = Some file →
  files' !! file = Some (order <$> (ta2groups !!! ta)).
Proof.
  revert files. induction tas as [|t tas IH]; cbn [write_assignments];
    intros files H Hinj Hin Hfile; [by apply elem_of_nil in Hin|].
  destruct (write_assignment env order ta2groups files t) as [files1|]
    eqn:Hw; cbn [mbind outcome_bind] in H; [|done].
  apply write_assignment_Done in Hw as (f & Hf & ->).
  destruct (decide (ta ∈ tas)) as [Hrest|Hrest].
  - eapply IH; [exact H| |done|done].
    intros t1 t2 f' H1 H2. apply Hinj; by right.
  - apply elem_of_cons in Hin as [->|?]; [|done].
    assert (f = file) as -> by congruence.
    rewrite (write_assignments_untouched _ _ _ _ _ _ _ H).
    + apply lookup_insert_eq.
    + intros t' Ht' Hf'. apply Hrest.
      by rewrite (Hinj t t' file) by (done || by left || by right).
Qed.

Lemma fresh_history_lookup (tas : gset string) (ta : string) (seen : gset string) :
  gset_to_gmap (∅ : gset string) tas !! ta = Some seen ↔ ta ∈ tas ∧ seen = ∅.
Proof. rewrite lookup_gset_to_gmap_Some. naive_solver. Qed.




(** X13.  When a run without a history file ends normally and the
    operating system gives different staff logins different files, the
    history written has one entry for every non-empty login of the staff
    file and for no one else; every such login has an assignment file, and
    its history entry lists exactly the students of the rows in that file;
    and no other file is written. *)
Theorem run_project_fresh_output (env : os_env)
    (order keys_order : gset string → list string)
    (block_rows ta_rows student_rows : list (list string)) (r : run_output) :
  enumerates order → enumerates keys_order →
  (∀ ta ta' file,
     (ta ≠ "" ∧ ∃ row, row ∈ ta_rows ∧ ta ∈ row) →
     (ta' ≠ "" ∧ ∃ row, row ∈ ta_rows ∧ ta' ∈ row) →
     assignment_file env ta = Some file →
     assignment_file env ta' = Some file → ta = ta') →
  run_project env order keys_order block_rows ta_rows student_rows None
    = Done r →
  (∀ ta, is_Some (history_file r !! ta) ↔
         ta ≠ "" ∧ ∃ row, row ∈ ta_rows ∧ ta ∈ row) ∧
  (∀ ta, (ta ≠ "" ∧ ∃ row, row ∈ ta_rows ∧ ta ∈ row) →
         ∃ file rows,
           assignment_file env ta = Some file ∧
           assignment_files r !! file = Some rows ∧
           ∀ student,
             student ∈ history_file r !!! ta ↔
             ∃ row, row ∈ rows ∧ student ∈ row) ∧
  (∀ file, is_Some (assignment_files r !! file) ↔
           ∃ ta, (ta ≠ "" ∧ ∃ row, row ∈ ta_rows ∧ ta ∈ row) ∧
                 assignment_file env ta = Some file).
Proof.
  intros Horder Hkeys Hinj. rewrite run_project_unfold.
  destruct (load_blocks block_rows ta_rows) as [blocks|] eqn:Hblocks;
    simp_outcome; [|done].
  cbn [load_project_data fst snd].
  set (tas := flatten_set ta_rows ∖ {[""]}).
  destruct (assign_project (order tas) (cleaned <$> student_rows)
              (gset_to_gmap ∅ tas) blocks) as [[ta2groups out]|] eqn:Hst;
    simp_outcome; [cbn [fst snd]|done].
  unfold update_project_history_to.
  destruct (update_project_history (gset_to_gmap ∅ tas) ta2groups)
    as [history'|] eqn:Hupd; simp_outcome; [|done].
  destruct (history_opens env); simp_outcome; [|done].
  unfold download_project_assignments.
  destruct (directory_ready env); [|done].
  destruct (write_assignments env order ta2groups
              (keys_order (dom ta2groups)) ∅) as [files|] eqn:Hw;
    simp_outcome; [|done].
  intros [= <-]. cbn [assignment_files history_file fst snd].
  apply update_project_history_Ok in Hupd as [_ ->].
  apply assign_project_Ok in Hst as (cap & _ & Hloop & _).
  apply assign_loop_dom in Hloop; [|apply empty_allocation_dom].
  rewrite (list_to_set_order order tas Horder) in Hloop.
  assert (∀ ta, ta ∈ tas ↔ ta ≠ "" ∧ ∃ row, row ∈ ta_rows ∧ ta ∈ row) as Htas.
  { intros ta. unfold tas.
    rewrite elem_of_difference, elem_of_flatten_set. set_solver. }
  assert (∀ ta, ta ∈ keys_order (dom ta2groups) ↔ ta ∈ tas) as Hwalk.
  { intros ta. by rewrite (proj2 (Hkeys _)), Hloop. }
  assert (∀ t t' f, t ∈ keys_order (dom ta2groups) →
            t' ∈ keys_order (dom ta2groups) →
            assignment_file env t = Some f →
            assignment_file env t' = Some f → t = t') as Hinj'.
  { intros t t' f Ht Ht'. apply Hinj; by apply Htas, Hwalk. }
  unfold dump_history. split; [|split].
  - intros ta. rewrite lookup_fmap, fmap_is_Some, merged_history_lookup,
      fmap_is_Some, <- Htas.
    split; [intros [? [? _]%fresh_history_lookup]; done|].
    intros ?. exists ∅. by apply fresh_history_lookup.
  - intros ta Hlogin%Htas.
    destruct (write_assignments_opened _ _ _ _ _ _ ta Hw) as [file Hfile];
      [by apply Hwalk|].
    exists file, (order <$> (ta2groups !!! ta)). split; [done|].
    split.
    { eapply write_assignments_lookup; [exact Hw|exact Hinj'| |done].
      by apply Hwalk. }
    intros student.
    rewrite lookup_total_alt, lookup_fmap, merged_history_lookup.
    assert (gset_to_gmap (∅ : gset string) tas !! ta = Some ∅) as ->
      by (by apply fresh_history_lookup).
    simpl. rewrite (proj2 (Horder _)), elem_of_union, elem_of_union_list.
    split.
    + intros [?|(pair & Hpair & Hs)]; [set_solver|].
      exists (order pair). split; [by apply list_elem_of_fmap_2|].
      by apply (proj2 (Horder _)).
    + intros (row & (pair & -> & Hpair)%list_elem_of_fmap & Hs).
      right. exists pair. split; [done|]. by apply (proj2 (Horder _)) in Hs.
  - intros file. split.
    + intros [rows Hrows].
      destruct (write_assignments_source _ _ _ _ _ _ _ _ Hw Hrows)
        as [Hempty|(ta & Hta & Hfile & _)]; [by rewrite lookup_empty in Hempty|].
      exists ta. split; [|done]. by apply Htas, Hwalk.
    + intros (ta & Hlogin%Htas & Hfile). eexists.
      eapply write_assignments_lookup; [exact Hw|exact Hinj'| |exact Hfile].
      by apply Hwalk.
Qed.

Lemma run_project_fresh_output_witness :
  ∃ r, run_project plain_os elements elements [[X; s1]] [[X]; [Y]]
         [[s1; s2]; [s3]] None = Done r ∧
       ∀ ta, (ta ≠ "" ∧ ∃ row, row ∈ [[X]; [Y]] ∧ ta ∈ row) →
         ∃ file rows,
           assignment_file plain_os ta = Some file ∧
           assignment_files r !! file = Some rows ∧
           ∀ student,
             student ∈ history_file r !!! ta ↔
             ∃ row, row ∈ rows ∧ student ∈ row.
Proof.
  destruct (run_project plain_os elements elements [[X; s1]] [[X]; [Y]]
              [[s1; s2]; [s3]] None)
    as [r|] eqn:Hrun; [|vm_compute in Hrun; discriminate Hrun].
  exists r. split; [done|].
  apply (run_project_fresh_output plain_os elements elements [[X; s1]]
           [[X]; [Y]] [[s1; s2]; [s3]] r).
  - intros S. split; [apply NoDup_elements|]. intros x. apply elem_of_elements.
  - intros S. split; [apply NoDup_elements|]. intros x. apply elem_of_elements.
  - intros ta ta' file _ _ Hta Hta'. simpl in Hta, Hta'. congruence.
  - exact Hrun.
Defined.

(** X14.  The history file written by one run is read back unchanged by
    the next: loading the object that [update_project_history] dumps gives
    the history that was dumped, whatever order the sets were listed in. *)
Theorem history_file_round_trip (order : gset string → list string)
    (ta_rows student_rows : list (list string)) (history : HistoryMap) :
  enumerates order →
  (load_project_data ta_rows student_rows
     (Some (dump_history order history))).2 = history.
Proof.
  intros Horder. cbn [load_project_data snd]. unfold dump_history.
  apply map_eq. intros ta. rewrite !lookup_fmap.
  destruct (history !! ta) as [seen|]; simpl; [|done].
  f_equal. by apply list_to_set_order.
Qed.

Lemma history_file_round_trip_witness :
  (load_project_data [[X]] [[s1]]
     (Some (dump_history elements {[X := {[s1; s2]}]}))).2
  = {[X := {[s1; s2]}]}.
Proof.
  apply (history_file_round_trip elements [[X]] [[s1]] {[X := {[s1; s2]}]}).
  intros S. split; [apply NoDup_elements|]. intros x. apply elem_of_elements.
Defined.

(** ** Order of placement and provenance of the students *)

Lemma assign_loop_appends (tas : list string) (history : HistoryMap)
    (blocks : BlockMap) (cap : nat) (pairs : list Group)
    (ta2groups ta2groups' : Allocation) (out out' : list event) (ta : string) :
  assign_loop tas history blocks cap (ta2groups, out) pairs = Ok (ta2groups', out') →
  ∃ added, ta2groups' !!! ta = ta2groups !!! ta ++ added ∧
           added `sublist_of` pairs.
Proof.
  revert ta2groups out.
  induction pairs as [|pr pairs IH]; cbn [assign_loop]; intros ta2groups out H.
  - injection H as <- <-. exists []. by rewrite app_nil_r.
  - bind_inv H. destruct a as [a out1].
    apply IH in H as (added & -> & Hsub).
    apply assign_pair_cases in H_l
      as (options & _ & [(_ & -> & _)|(t & _ & -> & _)]).
    + exists added. split; [done|]. by apply sublist_cons.
    + unfold append_pair. rewrite lookup_total_insert. case_decide as Heq.
      * subst t. exists (pr :: added). split; [|by apply sublist_skip].
        by rewrite <- (assoc_L (++)).
      * exists added. split; [done|]. by apply sublist_cons.
Qed.

(** X15.  In the returned allocation the list of every staff member is a
    subsequence of the input list of groups: groups are only ever appended,
    in the order in which they are given. *)
Theorem assign_project_input_order (tas : list string)
    (student_pairs : list Group) (history : HistoryMap) (blocks : BlockMap)
    (ta2groups : Allocation) (out : list event) (ta : string)
    (group : list Group) :
  assign_project tas student_pairs history blocks = Ok (ta2groups, out) →
  ta2groups !! ta = Some group →
  group `sublist_of` student_pairs.
Proof.
  intros (cap & _ & Hloop & _)%assign_project_Ok Hgroup.
  apply (assign_loop_appends _ _ _ _ _ _ _ _ _ ta) in Hloop
    as (added & Hadded & Hsub).
  rewrite (lookup_total_correct _ _ _ Hgroup) in Hadded. subst group.
  rewrite lookup_total_alt.
  destruct (empty_allocation tas !! ta) as [l|] eqn:Hl; simpl; [|done].
  by apply empty_allocation_lookup in Hl as [_ ->].
Qed.

Lemma assign_project_input_order_witness :
  ([{[s1; s2]}; {[s4; s5]}] : list Group)
    `sublist_of` [{[s1; s2]}; {[s3]}; {[s4; s5]}].
Proof.
  apply (assign_project_input_order [X; Y] [{[s1; s2]}; {[s3]}; {[s4; s5]}]
           {[X := ∅; Y := ∅]} {[X := ∅; Y := ∅]}
           {[X := [{[s1; s2]}; {[s4; s5]}]; Y := [{[s3]}]]} [] X).
  - vm_compute; reflexivity.
  - vm_compute; reflexivity.
Defined.

(** X16.  Whatever the files hold, every student written to an assignment
    file of a run that ends normally is a non-empty cell of the student
    file: blank cells never reach the output and no student is made up. *)
Theorem run_project_students (env : os_env)
    (order keys_order : gset string → list string)
    (block_rows ta_rows student_rows : list (list string))
    (proj_hist : option (gmap string (list string))) (r : run_output)
    (ta : string) (rows : list (list string)) (row : list string)
    (student : string) :
  enumerates order →
  run_project env order keys_order block_rows ta_rows student_rows proj_hist
    = Done r →
  assignment_files r !! ta = Some rows → row ∈ rows → student ∈ row →
  student ≠ "" ∧ ∃ cells, cells ∈ student_rows ∧ student ∈ cells.
Proof.
  intros Horder. rewrite run_project_unfold.
  destruct (load_blocks block_rows ta_rows) as [blocks|]; simp_outcome;
    [|done].
  set (tas := (load_project_data ta_rows student_rows proj_hist).1.1).
  set (history := (load_project_data ta_rows student_rows proj_hist).2).
  change ((load_project_data ta_rows student_rows proj_hist).1.2)
    with (cleaned <$> student_rows).
  destruct (assign_project (order tas) (cleaned <$> student_rows) history
              blocks) as [[ta2groups out]|] eqn:Hst;
    simp_outcome; [cbn [fst snd]|done].
  destruct (update_project_history_to env order history ta2groups)
    as [written|]; simp_outcome; [|done].
  unfold download_project_assignments.
  destruct (directory_ready env); [|done].
  destruct (write_assignments env order ta2groups
              (keys_order (dom ta2groups)) ∅) as [files|] eqn:Hw;
    simp_outcome; [|done].
  intros [= <-]. cbn [assignment_files]. intros Hrows Hrow Hs.
  destruct (write_assignments_source _ _ _ _ _ _ _ _ Hw Hrows)
    as [Hempty|(t & _ & _ & ->)]; [by rewrite lookup_empty in Hempty|].
  apply list_elem_of_fmap in Hrow as (pair & -> & Hpair).
  apply (proj2 (Horder _)) in Hs.
  apply assign_project_Ok in Hst as (cap & _ & Hloop & _).
  apply (assign_loop_appends _ _ _ _ _ _ _ _ _ t) in Hloop
    as (added & Hadded & Hsub).
  rewrite Hadded in Hpair.
  assert (pair ∈ cleaned <$> student_rows) as Hin.
  { eapply elem_of_sublist; [|exact Hsub].
    apply elem_of_app in Hpair as [Hpair|Hpair]; [|done].
    simpl in Hpair. rewrite lookup_total_alt in Hpair.
    destruct (empty_allocation (order tas) !! t) as [l|] eqn:Hl;
      simpl in Hpair; [|by apply elem_of_nil in Hpair].
    apply empty_allocation_lookup in Hl as [_ ->].
    by apply elem_of_nil in Hpair. }
  apply list_elem_of_fmap in Hin as (cells & -> & Hcells).
  unfold cleaned in Hs. apply elem_of_difference in Hs as [Hs Hne].
  apply elem_of_list_to_set in Hs. split; [set_solver|]. by exists cells.
Qed.

Lemma run_project_students_witness :
  s1 ≠ "" ∧ ∃ cells, cells ∈ [[s1; ""]; [s3]] ∧ s1 ∈ cells.
Proof.
  destruct (run_project plain_os elements elements [] [[X]]
              [[s1; ""]; [s3]] None)
    as [r|] eqn:Hrun; [|vm_compute in Hrun; discriminate Hrun].
  apply (run_project_students plain_os elements elements [] [[X]]
           [[s1; ""]; [s3]] None r X [[s1]; [s3]] [s1] s1).
  - intros S. split; [apply NoDup_elements|]. intros x. apply elem_of_elements.
  - exact Hrun.
  - vm_compute in Hrun. injection Hrun as <-. vm_compute; reflexivity.
  - by left.
  - by left.
Defined.

Lemma update_project_history_KeyError_witness :
  KeyError = KeyError.
Proof.
  apply (proj1 (update_project_history_KeyError ∅ {[X := [{[s1]}]]})).
  vm_compute; reflexivity.
Defined.

End Block.
